(** * MyBackTest: a shallow embedding of the backtest core

    The development follows the two source files:

    - [main.py]: the [EMA] calculator and the reference strategy
      [ema_trend_strategy], which keeps its calculators as an attribute of
      the function object;
    - [modules.py]: [DataHandler.merge_data], [StrategyEngine.run_strategy],
      [TradeManager] ([execute_trade], [update_stop_loss]) and
      [ResultAnalyzer.generate_report].

    Numbers.  Python floats are modelled as exact rationals extended with a
    not-a-number value ([NaN], what an outer join leaves in a cell without
    data).  Rounding, overflow and infinities are outside the model.

    Effects.  Python code that raises and mutates is written in a state and
    exception monad [M S]: a computation returns a [result] together with the
    state it leaves behind, also when it raises. *)

From Stdlib Require Import QArith Lqa.
From stdpp Require Import base list strings gmap pretty.

Open Scope Q_scope.

(* ================================================================= *)
(** * Numbers *)

Inductive float : Type :=
| Fin (q : Q)
| NaN.

Definition lift2 (op : Q -> Q -> Q) (a b : float) : float :=
  match a, b with
  | Fin x, Fin y => Fin (op x y)
  | _, _ => NaN
  end.

Definition fadd := lift2 Qplus.
Definition fsub := lift2 Qminus.
Definition fmul := lift2 Qmult.

(** Comparisons: every comparison with [NaN] is false. *)
Definition cmp2 (op : Q -> Q -> bool) (a b : float) : bool :=
  match a, b with
  | Fin x, Fin y => op x y
  | _, _ => false
  end.

Definition Qlt_bool (x y : Q) : bool := negb (Qle_bool y x).

Definition fleb := cmp2 Qle_bool.
Definition fltb := cmp2 Qlt_bool.
Definition fgtb (a b : float) := fltb b a.

(** Python's [max(a, b)] and [min(a, b)] on two arguments: the first
    argument is kept unless the second is strictly better. *)
Definition py_max (a b : float) : float := if fgtb b a then b else a.
Definition py_min (a b : float) : float := if fltb b a then b else a.

(** The order used to state results; it relates finite values only. *)
Definition fle (a b : float) : Prop :=
  match a, b with
  | Fin x, Fin y => x <= y
  | _, _ => False
  end.

(** Equality of values (the same number, whatever its fraction). *)
Definition feq (a b : float) : Prop :=
  match a, b with
  | Fin x, Fin y => x == y
  | NaN, NaN => True
  | _, _ => False
  end.


(* ================================================================= *)
(** * Exceptions, and the state and exception monad *)

Inductive exn : Type :=
| KeyError (key : string)
| TypeError
| AttributeError
| ZeroDivisionError
| ValueError (msg : string).

Inductive result (A : Type) : Type :=
| Ok (a : A)
| Raise (e : exn).
Arguments Ok {A} a.
Arguments Raise {A} e.

(** A computation over a mutable state [S]: the state is returned in both
    outcomes, since what was mutated before a [raise] stays mutated. *)
Definition M (S A : Type) : Type := S -> result A * S.

Section Monad.
Context {S : Type}.

Definition ret {A} (a : A) : M S A := fun s => (Ok a, s).

Definition bind {A B} (m : M S A) (k : A -> M S B) : M S B :=
  fun s =>
    match m s with
    | (Ok a, s') => k a s'
    | (Raise e, s') => (Raise e, s')
    end.

Definition raise {A} (e : exn) : M S A := fun s => (Raise e, s).
Definition get : M S S := fun s => (Ok s, s).
Definition put (s : S) : M S unit := fun _ => (Ok tt, s).
Definition modify (f : S -> S) : M S unit := fun s => (Ok tt, f s).

Definition lift {A} (r : result A) : M S A := fun s => (r, s).

(** [for x in l: body x] *)
Fixpoint for_each {A} (l : list A) (body : A -> M S unit) : M S unit :=
  match l with
  | [] => ret tt
  | x :: l' => bind (body x) (fun _ => for_each l' body)
  end.
End Monad.

Notation "x <~ m ;; k" := (bind m (fun x => k))
  (at level 100, m at next level, right associativity, only parsing).
Notation "m ;;; k" := (bind m (fun _ => k))
  (at level 100, right associativity, only parsing).

(** The same for code that raises but has no state to thread. *)
Definition rbind {A B} (r : result A) (k : A -> result B) : result B :=
  match r with
  | Ok a => k a
  | Raise e => Raise e
  end.

Notation "x <~r m ;; k" := (rbind m (fun x => k))
  (at level 100, m at next level, right associativity, only parsing).

(* ================================================================= *)
(** * main.py: the EMA calculator *)

Record EMA : Type := mkEMA {
  window : Z;
  alpha : Q;
  value : option float
}.

(** [EMA.__init__]: [2 / (window + 1)] divides by zero for [window = -1]. *)
Definition EMA_init (w : Z) : result EMA :=
  if decide (w + 1 = 0)%Z then Raise ZeroDivisionError
  else Ok {| window := w; alpha := 2 / inject_Z (w + 1); value := None |}.

(** [EMA.update] *)
Definition EMA_update (e : EMA) (price : float) : EMA :=
  match value e with
  | None =>
      {| window := window e; alpha := alpha e; value := Some price |}
  | Some v =>
      {| window := window e; alpha := alpha e;
         value := Some (fadd (fmul (Fin (alpha e)) price)
                             (fmul (Fin (1 - alpha e)) v)) |}
  end.

(* ================================================================= *)
(** * Rows of the aligned table, and Python dicts kept in order *)

(** A [pandas] row (a [Series]): the cells of one timestamp by column
    name.  [row[key]] raises [KeyError] for a column that is not there. *)
Definition Row : Type := list (string * float).

Fixpoint assoc_get {V} (d : list (string * V)) (key : string) : option V :=
  match d with
  | [] => None
  | (k, v) :: d' => if decide (k = key) then Some v else assoc_get d' key
  end.

(** [d[key] = v] on a dict: an existing key keeps its place, a new one goes
    to the end. *)
Fixpoint dict_set {V} (d : list (string * V)) (key : string) (v : V)
  : list (string * V) :=
  match d with
  | [] => [(key, v)]
  | (k, v0) :: d' =>
      if decide (k = key) then (k, v) :: d' else (k, v0) :: dict_set d' key v
  end.

Definition row_get (row : Row) (key : string) : result float :=
  match assoc_get row key with
  | Some v => Ok v
  | None => Raise (KeyError key)
  end.

(** Operators on values that may be Python's [None]: comparing or
    multiplying [None] raises [TypeError]. *)
Definition cmp_opt (op : float -> float -> bool) (a b : option float)
  : result bool :=
  match a, b with
  | Some x, Some y => Ok (op x y)
  | _, _ => Raise TypeError
  end.

Definition mul_opt (a : option float) (b : float) : result float :=
  match a with
  | Some x => Ok (fmul x b)
  | None => Raise TypeError
  end.

(** [a and b], where [b] is evaluated only when [a] is true. *)
Definition sc_and (a : bool) (b : result bool) : result bool :=
  if a then b else Ok false.

(* ================================================================= *)
(** * main.py: the reference strategy *)

Inductive Signal : Type := Buy | Sell | Close.

Inductive Trend : Type := bull | bear.

Definition Signal_eqb (a b : Signal) : bool :=
  match a, b with
  | Buy, Buy | Sell, Sell | Close, Close => true
  | _, _ => false
  end.

Definition Trend_eqb (a b : option Trend) : bool :=
  match a, b with
  | Some bull, Some bull | Some bear, Some bear | None, None => true
  | _, _ => false
  end.

(** The attribute [ema_trend_strategy.ema_calculator]: [None] while the
    attribute does not exist, then the dict of calculators by name. *)
Abbreviation StrategyState := (option (gmap string EMA)).

Definition key_15m_close (instrument : string) : string :=
  instrument +:+ "_15m_close".
Definition key_15m_ema (instrument : string) (w : Z) : string :=
  instrument +:+ "_15m_ema_" +:+ pretty w.
Definition key_1h_ema (instrument : string) (w : Z) : string :=
  instrument +:+ "_1h_ema_" +:+ pretty w.

Definition calc_get (key : string) : M StrategyState EMA :=
  fun st =>
    match st with
    | None => (Raise AttributeError, st)
    | Some d =>
        match d !! key with
        | Some e => (Ok e, st)
        | None => (Raise (KeyError key), st)
        end
    end.

Definition calc_set (key : string) (e : EMA) : M StrategyState unit :=
  fun st =>
    match st with
    | None => (Raise AttributeError, st)
    | Some d => (Ok tt, Some (<[key := e]> d))
    end.

(** Lines 19-23: create the calculators on the first call only. *)
Definition init_calculators (instrument : string) (ema_windows : list Z)
  : M StrategyState unit :=
  st <~ get;;
  match st with
  | Some _ => ret tt
  | None =>
      put (Some ∅);;;
      for_each ema_windows (fun w =>
        e15 <~ lift (EMA_init w);;
        calc_set (key_15m_ema instrument w) e15;;;
        e1h <~ lift (EMA_init w);;
        calc_set (key_1h_ema instrument w) e1h)
  end.

(** Lines 26-28: feed the price to every calculator. *)
Definition update_calculators (instrument : string) (ema_windows : list Z)
    (price : float) : M StrategyState unit :=
  for_each ema_windows (fun w =>
    e15 <~ calc_get (key_15m_ema instrument w);;
    calc_set (key_15m_ema instrument w) (EMA_update e15 price);;;
    e1h <~ calc_get (key_1h_ema instrument w);;
    calc_set (key_1h_ema instrument w) (EMA_update e1h price)).

Definition calc_value (key : string) : M StrategyState (option float) :=
  e <~ calc_get key;; ret (value e).

(** Lines 37-50: [bull] if [a > b], [bear] if [a < b], else [None]. *)
Definition classify (a b : option float) : result (option Trend) :=
  gt <~r cmp_opt fgtb a b;;
  if gt then Ok (Some bull)
  else
    lt <~r cmp_opt fltb a b;;
    if lt then Ok (Some bear) else Ok None.

Module Locals.
(** The local variables of one call, as they stand at [return signal]. *)
Record t : Type := mk {
  signal : option Signal;
  position : Q;
  stop_loss : option float;
  take_profit : option float;
  highest_price : option float;
  lowest_price : option float
}.
End Locals.

(** Lines 52-104.  The locals are initialised on every call, then the
    entry and scale-in chain runs, then the stop-loss check. *)
Definition trade_logic (price : float) (major_trend minor_trend : option Trend)
  : result Locals.t :=
  let signal : option Signal := None in
  let position : Q := 0 in
  let stop_loss : option float := None in
  let take_profit : option float := None in
  let highest_price : option float := None in
  let lowest_price : option float := None in
  let unchanged :=
    Locals.mk signal position stop_loss take_profit highest_price lowest_price in
  l <~r
    (if Trend_eqb major_trend (Some bull) && Trend_eqb minor_trend (Some bull)
     then
       if Qeq_bool position 0 then
         Ok (Locals.mk (Some Buy) 0.2 (Some (fmul price (Fin 0.9)))
               take_profit (Some price) lowest_price)
       else
         tier2 <~r sc_and (Qeq_bool position 0.2)
                     (t <~r mul_opt highest_price (Fin 1.1);;
                      Ok (fgtb price t));;
         if tier2 then
           s <~r mul_opt highest_price (Fin 0.9);;
           Ok (Locals.mk (Some Buy) 0.5 (Some s)
                 take_profit (Some price) lowest_price)
         else
           tier3 <~r sc_and (Qeq_bool position 0.5)
                       (t <~r mul_opt highest_price (Fin 1.2);;
                        Ok (fgtb price t));;
           if tier3 then
             s <~r mul_opt highest_price (Fin 0.9);;
             Ok (Locals.mk (Some Buy) 1.0 (Some s)
                   take_profit (Some price) lowest_price)
           else Ok unchanged
     else if Trend_eqb major_trend (Some bear)
             && Trend_eqb minor_trend (Some bear)
     then
       if Qeq_bool position 0 then
         Ok (Locals.mk (Some Sell) 0.2 (Some (fmul price (Fin 1.1)))
               take_profit highest_price (Some price))
       else
         tier2 <~r sc_and (Qeq_bool position 0.2)
                     (t <~r mul_opt lowest_price (Fin 0.9);;
                      Ok (fltb price t));;
         if tier2 then
           s <~r mul_opt lowest_price (Fin 1.1);;
           Ok (Locals.mk (Some Sell) 0.5 (Some s)
                 take_profit highest_price (Some price))
         else
           tier3 <~r sc_and (Qeq_bool position 0.5)
                       (t <~r mul_opt lowest_price (Fin 0.8);;
                        Ok (fltb price t));;
           if tier3 then
             s <~r mul_opt lowest_price (Fin 1.1);;
             Ok (Locals.mk (Some Sell) 1.0 (Some s)
                   take_profit highest_price (Some price))
           else Ok unchanged
     else Ok unchanged);;
  stopped <~r sc_and (Qlt_bool 0 (Locals.position l))
                (cmp_opt fleb (Some price) (Locals.stop_loss l));;
  if stopped then
    Ok (Locals.mk (Some Close) (Locals.position l) (Locals.stop_loss l)
          (Locals.take_profit l) (Locals.highest_price l)
          (Locals.lowest_price l))
  else Ok l.

(** The body of [ema_trend_strategy] up to [return], keeping the trends and
    the locals it ends with. *)
Definition strategy_body (row : Row) (instrument : string)
    (ema_windows : list Z)
  : M StrategyState (float * option Trend * option Trend * Locals.t) :=
  price <~ lift (row_get row (key_15m_close instrument));;
  init_calculators instrument ema_windows;;;
  update_calculators instrument ema_windows price;;;
  ema_5_15m <~ calc_value (key_15m_ema instrument 5);;
  ema_12_15m <~ calc_value (key_15m_ema instrument 12);;
  ema_12_1h <~ calc_value (key_1h_ema instrument 12);;
  ema_20_1h <~ calc_value (key_1h_ema instrument 20);;
  major_trend <~ lift (classify ema_12_1h ema_20_1h);;
  minor_trend <~ lift (classify ema_5_15m ema_12_15m);;
  l <~ lift (trade_logic price major_trend minor_trend);;
  ret (price, major_trend, minor_trend, l).

(** [ema_trend_strategy(row, instrument, initial_balance, ema_windows)];
    [initial_balance] is not used by the function. *)
Definition ema_trend_strategy (row : Row) (instrument : string)
    (ema_windows : list Z) : M StrategyState (option Signal) :=
  r <~ strategy_body row instrument ema_windows;;
  ret (Locals.signal r.2).

Definition default_ema_windows : list Z := [5; 12; 20]%Z.

(* ================================================================= *)
(** * modules.py: tables *)

(** A [DataFrame]: column names, and for every index label (a timestamp)
    the cells of its row, in column order.  Index labels are taken to be
    unique, as the data source promises strictly increasing timestamps. *)
Record DataFrame : Type := mkDataFrame {
  columns : list string;
  rows : list (Z * list float)
}.

Definition index (df : DataFrame) : list Z := (rows df).*1.

(** [df.add_prefix(p)] *)
Definition add_prefix (p : string) (df : DataFrame) : DataFrame :=
  {| columns := (fun c => p +:+ c) <$> columns df; rows := rows df |}.

(** [df.iterrows()] *)
Definition iterrows (df : DataFrame) : list (Z * Row) :=
  (fun r : Z * list float => (r.1, zip (columns df) r.2)) <$> rows df.

(** [df.loc[start:end]] on an index in ascending order: the rows whose
    label lies between the two bounds, both included, whether or not a
    bound is itself a label.  On an index that is not in order pandas
    looks the two bounds up as labels instead; the results about runs of
    the engine are stated for an ascending index. *)
Definition loc_slice (df : DataFrame) (start_time end_time : Z) : DataFrame :=
  {| columns := columns df;
     rows := filter (fun r : Z * list float =>
                       (start_time <= r.1 <= end_time)%Z) (rows df) |}.

Fixpoint insert_sorted (x : Z) (l : list Z) : list Z :=
  match l with
  | [] => [x]
  | y :: l' =>
      if (x <? y)%Z then x :: l
      else if (x =? y)%Z then l
      else y :: insert_sorted x l'
  end.

(** The sorted union of two indexes. *)
Definition union_index (a b : list Z) : list Z :=
  foldr insert_sorted [] (a ++ b).

Fixpoint row_at (rs : list (Z * list float)) (t : Z) : option (list float) :=
  match rs with
  | [] => None
  | (i, cells) :: rs' => if (i =? t)%Z then Some cells else row_at rs' t
  end.

Definition cells_or_nan (df : DataFrame) (t : Z) : list float :=
  match row_at (rows df) t with
  | Some cells => cells
  | None => replicate (length (columns df)) NaN
  end.

Definition overlaps (a b : list string) : bool :=
  existsb (fun c => bool_decide (c ∈ b)) a.

(** [left.join(right, how='outer')] for frames with unique index labels:
    the index is the sorted union, a frame without a row at a label
    contributes [NaN] cells, and a column name found on both sides is
    refused with [ValueError] (the message of pandas goes on to list the
    columns). *)
Definition join_outer (left right : DataFrame) : result DataFrame :=
  if overlaps (columns left) (columns right) then
    Raise (ValueError "columns overlap but no suffix specified")
  else
    Ok {| columns := columns left ++ columns right;
          rows := (fun t => (t, cells_or_nan left t ++ cells_or_nan right t))
                    <$> union_index (index left) (index right) |}.

Fixpoint fold_result {A B} (f : B -> A -> result B) (l : list A) (b : B)
  : result B :=
  match l with
  | [] => Ok b
  | x :: l' => b' <~r f b x;; fold_result f l' b'
  end.

(* ================================================================= *)
(** * modules.py: DataHandler *)

Section DataHandler.

(** [datafeed.load_local_data], of the module [data_feed], which is not
    part of the sources: any loader, which may raise. *)
Variable datafeed_load_local_data : string -> string -> result DataFrame.

Definition load_local_data (instrument period : string) : result DataFrame :=
  datafeed_load_local_data instrument period.

(** One pass of the inner loop body: load, prefix, then keep or join. *)
Definition merge_step (instrument : string) (merged_df : option DataFrame)
    (period : string) : result (option DataFrame) :=
  df <~r load_local_data instrument period;;
  let df := add_prefix (instrument +:+ "_" +:+ period +:+ "_") df in
  match merged_df with
  | None => Ok (Some df)
  | Some m => j <~r join_outer m df;; Ok (Some j)
  end.

(** [DataHandler.merge_data]; the result [None] is Python's [None]. *)
Definition merge_data (instruments periods : list string)
  : result (option DataFrame) :=
  fold_result
    (fun merged_df instrument =>
       fold_result (merge_step instrument) periods merged_df)
    instruments None.

End DataHandler.

(* ================================================================= *)
(** * modules.py: StrategyEngine *)

Section StrategyEngine.
Context {S : Type}.

(** A strategy function with its keyword parameters already bound; [S] is
    whatever state the function keeps between calls. *)
Definition Strategy : Type := Row -> M S (option Signal).

Record StrategyEngine : Type := mkStrategyEngine {
  strategy_function : option Strategy
}.

Definition StrategyEngine_init : StrategyEngine :=
  {| strategy_function := None |}.

Definition load_strategy (self : StrategyEngine) (f : Strategy)
  : StrategyEngine :=
  {| strategy_function := Some f |}.

(** The loop of [run_strategy] over the rows still to visit; [signals] is
    the list built so far.  A signal is kept when it is truthy: [None] is
    not, the three signal strings are. *)
Fixpoint run_rows (f : Strategy) (todo : list (Z * Row))
    (signals : list (Z * Signal)) : M S (list (Z * Signal)) :=
  match todo with
  | [] => ret signals
  | (idx, row) :: todo' =>
      signal <~ f row;;
      run_rows f todo'
        (match signal with
         | Some sg => signals ++ [(idx, sg)]
         | None => signals
         end)
  end.

Definition run_strategy (self : StrategyEngine) (data : DataFrame)
    (start_time end_time : Z) : M S (list (Z * Signal)) :=
  match strategy_function self with
  | None => raise (ValueError "未加载策略函数")
  | Some f =>
      let filtered_data := loc_slice data start_time end_time in
      run_rows f (iterrows filtered_data) []
  end.

End StrategyEngine.
Arguments Strategy : clear implicits.
Arguments StrategyEngine : clear implicits.

(* ================================================================= *)
(** * modules.py: TradeManager *)

(** A trade dict.  [take_profit], [highest_price] and [lowest_price] hold a
    number or Python's [None]; [close_price] is [None] when the dict has no
    such key ([execute_trade] never sets it). *)
Record Trade : Type := mkTrade {
  instrument : string;
  time : Z;
  signal : Signal;
  price : float;
  stop_loss : float;
  take_profit : option float;
  highest_price : option float;
  lowest_price : option float;
  close_price : option float
}.

(** The trade dicts live in a store and are referred to by address, because
    [execute_trade] puts the same dict in [trades_log] and in [positions]:
    a write through one is seen through the other. *)
Record TradeManager : Type := mkTradeManager {
  store : list Trade;
  trades_log : list nat;
  positions : list (string * nat)
}.

Definition TradeManager_init : TradeManager :=
  {| store := []; trades_log := []; positions := [] |}.

(** The dict built at the start of [execute_trade]. *)
Definition make_trade (signal : Signal) (current_time : Z) (price : float)
    (instrument : string) : Trade :=
  {| instrument := instrument;
     time := current_time;
     signal := signal;
     price := price;
     stop_loss := if Signal_eqb signal Buy then fmul price (Fin 0.9)
                  else fmul price (Fin 1.1);
     take_profit := None;
     highest_price := if Signal_eqb signal Buy then Some price else None;
     lowest_price := if Signal_eqb signal Sell then Some price else None;
     close_price := None |}.

(** [TradeManager.execute_trade]: the new dict is appended to the log and
    becomes the instrument's position. *)
Definition execute_trade (signal : Signal) (current_time : Z) (price : float)
    (instrument : string) (self : TradeManager) : TradeManager :=
  let trade := make_trade signal current_time price instrument in
  let a := length (store self) in
  {| store := store self ++ [trade];
     trades_log := trades_log self ++ [a];
     positions := dict_set (positions self) instrument a |}.

(** Reading and writing the dict at an address.  An address outside the
    store is not something the program can produce; the read then raises
    [AttributeError] to keep the function total. *)
Definition deref (a : nat) : M TradeManager Trade :=
  fun self =>
    match store self !! a with
    | Some t => (Ok t, self)
    | None => (Raise AttributeError, self)
    end.

Definition assign (a : nat) (t : Trade) : M TradeManager unit :=
  modify (fun self =>
    {| store := <[a := t]> (store self);
       trades_log := trades_log self;
       positions := positions self |}).

Definition set_highest (t : Trade) (h : float) : Trade :=
  mkTrade (instrument t) (time t) (signal t) (price t) (stop_loss t)
    (take_profit t) (Some h) (lowest_price t) (close_price t).

Definition set_lowest (t : Trade) (l : float) : Trade :=
  mkTrade (instrument t) (time t) (signal t) (price t) (stop_loss t)
    (take_profit t) (highest_price t) (Some l) (close_price t).

Definition set_stop_loss (t : Trade) (s : float) : Trade :=
  mkTrade (instrument t) (time t) (signal t) (price t) s
    (take_profit t) (highest_price t) (lowest_price t) (close_price t).

(** [max(x, y)] and [min(x, y)] when [x] may be [None]. *)
Definition max_opt (x : option float) (y : float) : result float :=
  match x with
  | Some v => Ok (py_max v y)
  | None => Raise TypeError
  end.

Definition min_opt (x : option float) (y : float) : result float :=
  match x with
  | Some v => Ok (py_min v y)
  | None => Raise TypeError
  end.

(** The body of the loop of [update_stop_loss] for one item of
    [positions]. *)
Definition update_position (price_data : Row) (item : string * nat)
  : M TradeManager unit :=
  let '(instrument, a) := item in
  current_price <~ lift (row_get price_data (instrument +:+ "_1m_close"));;
  position <~ deref a;;
  match signal position with
  | Buy =>
      h <~ lift (max_opt (highest_price position) current_price);;
      assign a (set_highest position h);;;
      assign a (set_stop_loss (set_highest position h) (fmul h (Fin 0.9)))
  | Sell =>
      l <~ lift (min_opt (lowest_price position) current_price);;
      assign a (set_lowest position l);;;
      assign a (set_stop_loss (set_lowest position l) (fmul l (Fin 1.1)))
  | Close => ret tt
  end.

(** [TradeManager.update_stop_loss]; [current_time] is not used. *)
Definition update_stop_loss (current_time : Z) (price_data : Row)
  : M TradeManager unit :=
  self <~ get;;
  for_each (positions self) (update_position price_data).

(** What a reader of [trades_log] sees: the dicts behind the addresses. *)
Definition log_view (self : TradeManager) : list (option Trade) :=
  (fun a => store self !! a) <$> trades_log self.

(** [self.positions[instrument]], dereferenced. *)
Definition position_of (self : TradeManager) (instrument : string)
  : option Trade :=
  a ← assoc_get (positions self) instrument; store self !! a.

(** The state after a series of [update_stop_loss] calls, one per row,
    whatever each call returned. *)
Definition update_stop_loss_all (rows : list (Z * Row)) (self : TradeManager)
  : TradeManager :=
  foldl (fun tm r => (update_stop_loss r.1 r.2 tm).2) self rows.

(* ================================================================= *)
(** * modules.py: ResultAnalyzer *)

Record Report : Type := mkReport {
  initial_balance : float;
  final_balance : float;
  total_return : float
}.

(** [a / b] on Python floats: a zero divisor raises. *)
Definition fdiv (a b : float) : result float :=
  match b with
  | Fin y =>
      if Qeq_bool y 0 then Raise ZeroDivisionError
      else match a with
           | Fin x => Ok (Fin (x / y))
           | NaN => Ok NaN
           end
  | NaN => Ok NaN
  end.

(** [trade['close_price']] *)
Definition get_close_price (trade : Trade) : result float :=
  match close_price trade with
  | Some c => Ok c
  | None => Raise (KeyError "close_price")
  end.

(** The body of the loop of [generate_report]. *)
Definition compound (balance : float) (trade : Trade) : result float :=
  match signal trade with
  | Buy =>
      c <~r get_close_price trade;;
      ratio <~r fdiv c (price trade);;
      Ok (fmul balance ratio)
  | Sell =>
      c <~r get_close_price trade;;
      ratio <~r fdiv (price trade) c;;
      Ok (fmul balance ratio)
  | Close => Ok balance
  end.

(** [ResultAnalyzer.generate_report]; the result [None] is the empty dict. *)
Definition generate_report (trades_log : list Trade) : result (option Report) :=
  match trades_log with
  | [] => Ok None
  | _ =>
      let initial_balance := Fin 100000 in
      balance <~r fold_result compound trades_log initial_balance;;
      total_return <~r fdiv (fsub balance initial_balance) initial_balance;;
      Ok (Some {| initial_balance := initial_balance;
                  final_balance := balance;
                  total_return := total_return |})
  end.

(* ================================================================= *)
(** * Sample tables and runs *)

(** The strategy as [main.py] loads it, for one instrument and the default
    windows. *)
Definition strategy_for (instrument : string) : Strategy StrategyState :=
  fun row => ema_trend_strategy row instrument default_ema_windows.

(** A table with the single column [X_15m_close] and one row per price,
    at timestamps 1, 2, ... *)
Definition close_table (prices : list Q) : DataFrame :=
  {| columns := ["X_15m_close"];
     rows := imap (fun i p => (Z.of_nat (S i), [Fin p])) prices |}.

(** The locals the strategy ends each row with, row after row. *)
Fixpoint body_trace (todo : list (Z * Row)) (instrument : string)
    (ema_windows : list Z) : M StrategyState (list Locals.t) :=
  match todo with
  | [] => ret []
  | (_, row) :: todo' =>
      r <~ strategy_body row instrument ema_windows;;
      rest <~ body_trace todo' instrument ema_windows;;
      ret (r.2 :: rest)
  end.


(** A price row for [update_stop_loss]: the 1-minute close of [X]. *)
Definition tick (p : Q) : Z * Row := (0%Z, [("X_1m_close", Fin p)]).

(** The strategy state after one row at price 100. *)
Definition state_after_100 : StrategyState :=
  (strategy_body [("X_15m_close", Fin 100)] "X" default_ema_windows None).2.

(** The trade manager after one long entry at 100, and after a second
    long entry for the same instrument. *)
Definition tm_long_100 : TradeManager :=
  execute_trade Buy 1 (Fin 100) "X" TradeManager_init.

Definition tm_long_100_again : TradeManager :=
  execute_trade Buy 2 (Fin 105) "X" tm_long_100.

(** The engine with the reference strategy loaded for [X]. *)
Definition engine_X : StrategyEngine StrategyState :=
  load_strategy StrategyEngine_init (strategy_for "X").

(** A long trade dict entered at 100 that also carries the key
    [close_price], at 110. *)
Definition long_100_closed_110 : Trade :=
  {| instrument := "X"; time := 1; signal := Buy; price := Fin 100;
     stop_loss := Fin 90; take_profit := None;
     highest_price := Some (Fin 100); lowest_price := None;
     close_price := Some (Fin 110) |}.

(** The log the trade manager itself builds for the same round trip: a
    long entry at 100, then a close at 110. *)
Definition round_trip_log : list Trade :=
  omap (fun e => e)
    (log_view (execute_trade Close 2 (Fin 110) "X" tm_long_100)).

(** A loader for two series [A] and [B] with one column each. *)
Definition sample_loader (instrument period : string) : result DataFrame :=
  if decide (instrument = "A") then
    Ok {| columns := ["close"];
          rows := [(1%Z, [Fin 10]); (2%Z, [Fin 11]); (3%Z, [Fin 12])] |}
  else if decide (instrument = "B") then
    Ok {| columns := ["close"];
          rows := [(2%Z, [Fin 20]); (3%Z, [Fin 21]); (4%Z, [Fin 22])] |}
  else Raise (KeyError instrument).

(* ================================================================= *)
(** * Predicates used to state the results on the trade manager *)

(** A position whose stop follows its extreme: what [execute_trade]
    creates from a finite price and what [update_stop_loss] maintains. *)
Definition tracked (p : Trade) : Prop :=
  match signal p with
  | Buy => exists h, highest_price p = Some (Fin h)
                     /\ stop_loss p = Fin (h * 0.9)
  | Sell => exists l, lowest_price p = Some (Fin l)
                      /\ stop_loss p = Fin (l * 1.1)
  | Close => True
  end.

(** [p'] is [p] with its stop moved only in the favourable direction. *)
Definition ratchet (p p' : Trade) : Prop :=
  signal p' = signal p
  /\ tracked p'
  /\ match signal p with
     | Buy => fle (stop_loss p) (stop_loss p')
     | Sell => fle (stop_loss p') (stop_loss p)
     | Close => stop_loss p' = stop_loss p
     end.

(** The fields of a trade dict that say what was traded. *)
Definition same_identity (p p' : Trade) : Prop :=
  instrument p' = instrument p
  /\ time p' = time p
  /\ signal p' = signal p
  /\ price p' = price p
  /\ take_profit p' = take_profit p
  /\ close_price p' = close_price p.

(** How the trade manager may change without a new trade: the log and the
    positions are the same lists of addresses, every dict keeps its
    identity, a dict that is no instrument's position is untouched, and a
    tracked dict is ratcheted. *)
Definition evolves (tm tm' : TradeManager) : Prop :=
  trades_log tm' = trades_log tm
  /\ positions tm' = positions tm
  /\ length (store tm') = length (store tm)
  /\ forall (b : nat) (p : Trade),
       store tm !! b = Some p ->
       exists p', store tm' !! b = Some p'
                  /\ same_identity p p'
                  /\ (b ∉ (positions tm).*2 -> p' = p)
                  /\ (tracked p -> ratchet p p').

(** Every address held by the log or by [positions] is in the store. *)
Definition wf (tm : TradeManager) : Prop :=
  Forall (fun a => (a < length (store tm))%nat) (trades_log tm)
  /\ Forall (fun a => (a < length (store tm))%nat) (positions tm).*2.

(* ================================================================= *)
(** * Predicates used to state the results on the strategy *)

(** The calculator [e] after [n] more updates with the same price. *)
Definition fed (price : float) (n : nat) (e : EMA) : EMA :=
  Nat.iter n (fun e' => EMA_update e' price) e.

(** The names of the calculators of an instrument for a list of windows. *)
Definition calculator_keys (instrument : string) (ema_windows : list Z)
  : list string :=
  ema_windows ≫= (fun w => [key_15m_ema instrument w; key_1h_ema instrument w]).

(** [d'] holds the calculators of [d], each fed [price] some number of
    times, and at least once when its name is in [ks]. *)
Definition advanced (price : float) (ks : list string)
    (d d' : gmap string EMA) : Prop :=
  forall k : string,
    match d !! k with
    | Some e => exists n, d' !! k = Some (fed price n e)
                          /\ (k ∈ ks -> (1 <= n)%nat)
    | None => d' !! k = None /\ k ∉ ks
    end.




(** The strategy bound to an instrument and a list of windows, as
    [run_strategy] calls it with its keyword parameters. *)
Definition strategy_with (instrument : string) (ema_windows : list Z)
  : Strategy StrategyState :=
  fun row => ema_trend_strategy row instrument ema_windows.


(** A list of timestamps in ascending order. *)
Fixpoint ascending (l : list Z) : Prop :=
  match l with
  | [] => True
  | x :: l' => Forall (fun y => (x <= y)%Z) l' /\ ascending l'
  end.

(** The signal a call returns, as a function of the price and the two
    trends: the entry of the side the trends agree on, unless the final
    check [price <= stop_loss] holds for the stop of that entry. *)
Definition signal_of_trends (price : float) (major minor : option Trend)
  : option Signal :=
  match major, minor with
  | Some bull, Some bull =>
      if fleb price (fmul price (Fin 0.9)) then Some Close else Some Buy
  | Some bear, Some bear =>
      if fleb price (fmul price (Fin 1.1)) then Some Close else Some Sell
  | _, _ => None
  end.







(* ================================================================= *)
(** * Predicates used to state further results on the trade manager *)

(** The states a trade manager passes through from [tm0] by calls of
    [execute_trade] and [update_stop_loss], whatever the latter return. *)
Inductive reachable_from (tm0 : TradeManager) : TradeManager -> Prop :=
| reachable_start : reachable_from tm0 tm0
| reachable_trade (sg : Signal) (t : Z) (price : float) (ins : string)
    (tm : TradeManager) :
    reachable_from tm0 tm ->
    reachable_from tm0 (execute_trade sg t price ins tm)
| reachable_update (t : Z) (price_data : Row) (tm : TradeManager) :
    reachable_from tm0 tm ->
    reachable_from tm0 (update_stop_loss t price_data tm).2.

(** The states of a trade manager created by [TradeManager()]. *)
Definition reachable (tm : TradeManager) : Prop :=
  reachable_from TradeManager_init tm.

(** A dict as [execute_trade] builds them: no [close_price] key, no
    take-profit, and the extreme of its side set. *)
Definition well_shaped (p : Trade) : Prop :=
  close_price p = None
  /\ take_profit p = None
  /\ match signal p with
     | Buy => is_Some (highest_price p)
     | Sell => is_Some (lowest_price p)
     | Close => True
     end.

(** The log lists every dict of the store once, in order of creation; no
    instrument has two positions; a position is a dict of its instrument;
    and every dict is well shaped. *)
Definition sound (tm : TradeManager) : Prop :=
  trades_log tm = seq 0 (length (store tm))
  /\ NoDup (positions tm).*1
  /\ (forall ins a, (ins, a) ∈ positions tm ->
        exists p, store tm !! a = Some p /\ instrument p = ins)
  /\ Forall well_shaped (store tm).


(** The dicts of the log, as [ResultAnalyzer] receives them. *)
Definition logged_trades (tm : TradeManager) : list Trade :=
  omap (fun e => e) (log_view tm).

(** The last dict of a list that is about the instrument. *)
Definition latest_for (l : list Trade) (ins : string) : option Trade :=
  last (filter (fun p => instrument p = ins) l).

(** The last place of a list of instrument names that holds [ins]. *)
Definition latest_index (names : list string) (ins : string) : option nat :=
  last (filter (fun i => names !! i = Some ins) (seq 0 (length names))).

(* ================================================================= *)
(** * Functions used to state further results on the analyzer *)

(** The factor one trade dict multiplies the balance by, when it has one:
    close over entry for a long trade, entry over close for a short one,
    1 for a close dict. *)
Definition price_ratio (t : Trade) : option Q :=
  match signal t with
  | Buy =>
      match close_price t, price t with
      | Some (Fin c), Fin p => if Qeq_bool p 0 then None else Some (c / p)
      | _, _ => None
      end
  | Sell =>
      match close_price t, price t with
      | Some (Fin c), Fin p => if Qeq_bool c 0 then None else Some (p / c)
      | _, _ => None
      end
  | Close => Some 1
  end.

(** The product of the factors of a log. *)
Fixpoint total_ratio (l : list Trade) : option Q :=
  match l with
  | [] => Some 1
  | t :: l' =>
      match price_ratio t, total_ratio l' with
      | Some r, Some rs => Some (r * rs)
      | _, _ => None
      end
  end.

(** What the loop body of [update_stop_loss] makes of a position dict at
    the price [x]. *)
Definition next_position (x : float) (p : Trade) : result Trade :=
  match signal p with
  | Buy =>
      h <~r max_opt (highest_price p) x;;
      Ok (set_stop_loss (set_highest p h) (fmul h (Fin 0.9)))
  | Sell =>
      l <~r min_opt (lowest_price p) x;;
      Ok (set_stop_loss (set_lowest p l) (fmul l (Fin 1.1)))
  | Close => Ok p
  end.

(** The trade manager with another store. *)
Definition with_store (tm : TradeManager) (s : list Trade) : TradeManager :=
  {| store := s; trades_log := trades_log tm; positions := positions tm |}.

(* ================================================================= *)
(** * Functions used to state further results on the data handler *)

(** A list of timestamps in strictly ascending order. *)
Fixpoint strictly_ascending (l : list Z) : Prop :=
  match l with
  | [] => True
  | x :: l' => Forall (fun y => (x < y)%Z) l' /\ strictly_ascending l'
  end.

(** The (instrument, period) pairs in the order [merge_data] visits them. *)
Definition pairs (instruments periods : list string) : list (string * string) :=
  instruments ≫= (fun i => periods ≫= (fun p => [(i, p)])).

(** The columns a pair contributes: those of its series, prefixed. *)
Definition pair_columns (loader : string -> string -> result DataFrame)
    (ip : string * string) : list string :=
  match loader ip.1 ip.2 with
  | Ok f => columns (add_prefix (ip.1 +:+ "_" +:+ ip.2 +:+ "_") f)
  | Raise _ => []
  end.

(** The timestamps of the series of a pair. *)
Definition pair_index (loader : string -> string -> result DataFrame)
    (ip : string * string) : list Z :=
  match loader ip.1 ip.2 with
  | Ok f => index f
  | Raise _ => []
  end.

Definition frame_columns (m : option DataFrame) : list string :=
  match m with Some df => columns df | None => [] end.

Definition frame_index (m : option DataFrame) : list Z :=
  match m with Some df => index df | None => [] end.

(* ================================================================= *)
(** * Invariants of the strategy state *)

(** [m] keeps the property [I] of the state, whether it returns or
    raises. *)
Definition keeps {S A} (I : S -> Prop) (m : M S A) : Prop :=
  forall s, I s -> I (m s).2.

(** The calculator named for the hour holds what the calculator named for
    the quarter of an hour holds, for every window. *)
Definition in_step (instrument : string) (st : StrategyState) : Prop :=
  match st with
  | None => True
  | Some d =>
      forall w, d !! key_1h_ema instrument w = d !! key_15m_ema instrument w
  end.

(** The attribute exists and holds exactly the calculators of the
    instrument for the windows [ws]. *)
Definition created_for (instrument : string) (ws : list Z)
    (st : StrategyState) : Prop :=
  match st with
  | None => False
  | Some d =>
      forall k, is_Some (d !! k) <-> k ∈ calculator_keys instrument ws
  end.

(* ================================================================= *)
(** * Facts about numbers *)

Lemma Qlt_bool_iff (x y : Q) : Qlt_bool x y = true <-> x < y.
Proof.
  unfold Qlt_bool. rewrite negb_true_iff.
  destruct (Qle_bool y x) eqn:E.
  - apply Qle_bool_iff in E. split; [discriminate | intros; lra].
  - split; [intros _ | reflexivity].
    destruct (Qlt_le_dec x y) as [|H]; [assumption |].
    apply Qle_bool_iff in H. congruence.
Qed.

Lemma fle_refl (q : Q) : fle (Fin q) (Fin q).
Proof. simpl. lra. Qed.

Lemma fle_trans (a b c : float) : fle a b -> fle b c -> fle a c.
Proof. destruct a, b, c; simpl; try tauto. intros; lra. Qed.

Lemma py_max_Fin (h : Q) (x : float) :
  exists h', py_max (Fin h) x = Fin h' /\ h <= h'.
Proof.
  destruct x as [q|]; unfold py_max, fgtb, fltb, cmp2.
  - destruct (Qlt_bool h q) eqn:E.
    + apply Qlt_bool_iff in E. exists q. split; [reflexivity | lra].
    + exists h. split; [reflexivity | lra].
  - exists h. split; [reflexivity | lra].
Qed.

Lemma py_min_Fin (l : Q) (x : float) :
  exists l', py_min (Fin l) x = Fin l' /\ l' <= l.
Proof.
  destruct x as [q|]; unfold py_min, fltb, cmp2.
  - destruct (Qlt_bool q l) eqn:E.
    + apply Qlt_bool_iff in E. exists q. split; [reflexivity | lra].
    + exists l. split; [reflexivity | lra].
  - exists l. split; [reflexivity | lra].
Qed.

(* ================================================================= *)
(** * Facts about the monad *)

Lemma bind_Ok_inv {S A B} (m : M S A) (k : A -> M S B) (s : S) (b : B) :
  (bind m k s).1 = Ok b ->
  exists a s', m s = (Ok a, s') /\ (k a s').1 = Ok b.
Proof.
  unfold bind. destruct (m s) as [[a|e] s']; simpl; [eauto | discriminate].
Qed.

Lemma lift_Ok_inv {S A} (r : result A) (s s' : S) (a : A) :
  lift r s = (Ok a, s') -> r = Ok a /\ s' = s.
Proof. unfold lift. intros [= -> ->]. auto. Qed.

(* ================================================================= *)
(** * The EMA calculator *)

Lemma EMA_update_alpha (e : EMA) (p : float) : alpha (EMA_update e p) = alpha e.
Proof. unfold EMA_update. destruct (value e); reflexivity. Qed.

Lemma EMA_update_seeded (e : EMA) (v q : float) :
  value e = Some v ->
  value (EMA_update e q)
  = Some (fadd (fmul (Fin (alpha e)) q) (fmul (Fin (1 - alpha e)) v)).
Proof. unfold EMA_update. intros ->. reflexivity. Qed.

Lemma EMA_fold_seeded (ps : list float) (e : EMA) (v : float) :
  value e = Some v ->
  value (foldl EMA_update e ps)
  = Some (foldl (fun v q => fadd (fmul (Fin (alpha e)) q)
                                 (fmul (Fin (1 - alpha e)) v)) v ps).
Proof.
  revert e v. induction ps as [|q ps IH]; intros e v Hv; simpl.
  - exact Hv.
  - rewrite (IH (EMA_update e q) _ (EMA_update_seeded e v q Hv)).
    rewrite EMA_update_alpha. reflexivity.
Qed.

(** C6.  For an EMA built with window [w]: [alpha] is [2 / (w + 1)]; the
    first update seeds the value with the first price; every update of a
    seeded calculator gives [alpha * price + (1 - alpha) * value]; hence
    after the prices [p :: ps] the value is that recurrence folded over
    [ps] from [p]. *)
Theorem ema_recurrence (w : Z) (e : EMA) (p : float) (ps : list float) :
  EMA_init w = Ok e ->
  alpha e = 2 / inject_Z (w + 1)
  /\ value (EMA_update e p) = Some p
  /\ (forall (e' : EMA) (v q : float),
        value e' = Some v ->
        value (EMA_update e' q)
        = Some (fadd (fmul (Fin (alpha e')) q) (fmul (Fin (1 - alpha e')) v)))
  /\ value (foldl EMA_update e (p :: ps))
     = Some (foldl (fun v q =>
                      fadd (fmul (Fin (2 / inject_Z (w + 1))) q)
                           (fmul (Fin (1 - 2 / inject_Z (w + 1))) v)) p ps).
Proof.
  unfold EMA_init. destruct (decide (w + 1 = 0)%Z); [discriminate |].
  intros [= <-]. repeat split.
  - intros e' v q. apply EMA_update_seeded.
  - set (e0 := {| window := w; alpha := 2 / inject_Z (w + 1); value := None |}).
    change (foldl EMA_update e0 (p :: ps))
      with (foldl EMA_update (EMA_update e0 p) ps).
    apply (EMA_fold_seeded ps (EMA_update e0 p) p). reflexivity.
Qed.

Lemma ema_recurrence_witness :
  value (foldl EMA_update (mkEMA 5 (2 / inject_Z (5 + 1)) None)
           [Fin 100; Fin 111])
  = Some (fadd (fmul (Fin (2 / inject_Z (5 + 1))) (Fin 111))
               (fmul (Fin (1 - 2 / inject_Z (5 + 1))) (Fin 100))).
Proof.
  exact (proj2 (proj2 (proj2
    (ema_recurrence 5 (mkEMA 5 (2 / inject_Z (5 + 1)) None)
       (Fin 100) [Fin 111] eq_refl)))).
Defined.

(* ================================================================= *)
(** * The reference strategy *)

(** What [trade_logic] computes on an aligned row with a finite price:
    the locals start from [position = 0] on every call, so only the entry
    branch of each chain can run. *)
Lemma trade_logic_bull (p : Q) :
  trade_logic (Fin p) (Some bull) (Some bull)
  = Ok (Locals.mk (if Qle_bool p (p * 0.9) then Some Close else Some Buy)
          0.2 (Some (Fin (p * 0.9))) None (Some (Fin p)) None).
Proof.
  unfold trade_logic. cbv -[Qmult Qle_bool].
  destruct (Qle_bool p (p * 0.9)); reflexivity.
Qed.

Lemma trade_logic_bear (p : Q) :
  trade_logic (Fin p) (Some bear) (Some bear)
  = Ok (Locals.mk (if Qle_bool p (p * 1.1) then Some Close else Some Sell)
          0.2 (Some (Fin (p * 1.1))) None None (Some (Fin p))).
Proof.
  unfold trade_logic. cbv -[Qmult Qle_bool].
  destruct (Qle_bool p (p * 1.1)); reflexivity.
Qed.

Lemma trade_logic_not_aligned (price : float) (major minor : option Trend) :
  Trend_eqb major (Some bull) && Trend_eqb minor (Some bull) = false ->
  Trend_eqb major (Some bear) && Trend_eqb minor (Some bear) = false ->
  trade_logic price major minor = Ok (Locals.mk None 0 None None None None).
Proof.
  intros H1 H2. unfold trade_logic. rewrite H1, H2. reflexivity.
Qed.

(** The position a call ends with is never one of the scaled sizes. *)
Lemma position_never_scales (price : float) (major minor : option Trend)
    (l : Locals.t) :
  trade_logic price major minor = Ok l ->
  Locals.position l = 0 \/ Locals.position l = 0.2.
Proof.
  destruct price as [p|].
  - destruct major as [[|]|], minor as [[|]|];
      try (rewrite trade_logic_not_aligned by reflexivity;
           intros [= <-]; left; reflexivity).
    + rewrite trade_logic_bull. intros [= <-]. right. reflexivity.
    + rewrite trade_logic_bear. intros [= <-]. right. reflexivity.
  - destruct major as [[|]|], minor as [[|]|];
      intros [= <-]; (left; reflexivity) || (right; reflexivity).
Qed.

(** The stop-loss check is the same comparison on both sides: with a
    position open, the row closes exactly when [price <= stop_loss]. *)
Lemma stop_check_is_one_sided (p : Q) (major minor : option Trend)
    (l : Locals.t) (s : float) :
  trade_logic (Fin p) major minor = Ok l ->
  Locals.stop_loss l = Some s ->
  (Locals.signal l = Some Close <-> fleb (Fin p) s = true).
Proof.
  destruct major as [[|]|], minor as [[|]|];
    try (rewrite trade_logic_not_aligned by reflexivity;
         intros [= <-]; discriminate).
  - rewrite trade_logic_bull. intros [= <-] [= <-]. cbn -[Qmult Qle_bool].
    destruct (Qle_bool p (p * 0.9)); intuition congruence.
  - rewrite trade_logic_bear. intros [= <-] [= <-]. cbn -[Qmult Qle_bool].
    destruct (Qle_bool p (p * 1.1)); intuition congruence.
Qed.

Lemma strategy_body_logic (row : Row) (instrument : string) (ws : list Z)
    (st : StrategyState) (price : float) (major minor : option Trend)
    (l : Locals.t) :
  (strategy_body row instrument ws st).1 = Ok (price, major, minor, l) ->
  trade_logic price major minor = Ok l.
Proof.
  unfold strategy_body. intros H.
  repeat (apply bind_Ok_inv in H; destruct H as (? & ? & ? & H)).
  repeat match goal with
         | E : lift _ _ = (Ok _, _) |- _ =>
             apply lift_Ok_inv in E; destruct E as [E ->]
         end.
  unfold ret in H. simpl in H. injection H as -> -> -> ->. assumption.
Qed.

Lemma strategy_signal (row : Row) (instrument : string) (ws : list Z)
    (st : StrategyState) (r : float * option Trend * option Trend * Locals.t) :
  (strategy_body row instrument ws st).1 = Ok r ->
  (ema_trend_strategy row instrument ws st).1 = Ok (Locals.signal r.2).
Proof.
  unfold ema_trend_strategy, bind.
  destruct (strategy_body row instrument ws st) as [[x|e] st']; simpl;
    [intros [= ->]; reflexivity | discriminate].
Qed.

(** C10.  On a row where the major and the minor trend are both bear and
    the close price is positive, the strategy returns [Close], not [Sell]:
    the short entry leaves [position = 0.2] and [stop_loss = price * 1.1],
    and the final check [position > 0 and price <= stop_loss] then holds. *)
Theorem bear_row_returns_close (row : Row) (instrument : string)
    (ws : list Z) (st : StrategyState) (p : Q) (l : Locals.t) :
  (strategy_body row instrument ws st).1
    = Ok (Fin p, Some bear, Some bear, l) ->
  0 < p ->
  (ema_trend_strategy row instrument ws st).1 = Ok (Some Close)
  /\ (ema_trend_strategy row instrument ws st).1 <> Ok (Some Sell)
  /\ Locals.position l = 0.2
  /\ Locals.stop_loss l = Some (fmul (Fin p) (Fin 1.1))
  /\ Qlt_bool 0 (Locals.position l) = true
  /\ cmp_opt fleb (Some (Fin p)) (Locals.stop_loss l) = Ok true.
Proof.
  intros Hbody Hp.
  pose proof (strategy_signal _ _ _ _ _ Hbody) as Hsig.
  apply strategy_body_logic in Hbody. rewrite trade_logic_bear in Hbody.
  assert (Hle : Qle_bool p (p * 1.1) = true) by (apply Qle_bool_iff; lra).
  rewrite Hle in Hbody. injection Hbody as <-.
  rewrite Hsig. cbn -[Qmult Qle_bool]. rewrite Hle.
  repeat split; congruence.
Qed.

Lemma bear_row_returns_close_witness :
  (ema_trend_strategy [("X_15m_close", Fin 90)] "X" default_ema_windows
     state_after_100).1 = Ok (Some Close).
Proof.
  refine (proj1 (bear_row_returns_close [("X_15m_close", Fin 90)] "X"
                   default_ema_windows state_after_100 90
                   (Locals.mk (Some Close) 0.2 (Some (Fin (90 * 1.1))) None
                      None (Some (Fin 90))) _ _)).
  - vm_compute. reflexivity.
  - reflexivity.
Defined.

(** C1 (the code does not do this).  On the rising path 100, 111, 123 both
    trends are bull from the second row on.  The second row enters at 20%
    with extreme 111, and the third price clears 111 * 1.1; yet the third
    row ends with [position = 0.2] again, a fresh entry and not the 50%
    tier, because [position] restarts from 0 on every call. *)
Theorem rising_path_never_reaches_tier_two :
  exists l1 l2 l3 : Locals.t,
    (body_trace (iterrows (close_table [100; 111; 123])) "X"
       default_ema_windows None).1 = Ok [l1; l2; l3]
    /\ Locals.signal l2 = Some Buy
    /\ Locals.position l2 = 0.2
    /\ Locals.highest_price l2 = Some (Fin 111)
    /\ 111 * 1.1 < 123
    /\ Locals.signal l3 = Some Buy
    /\ Locals.position l3 = 0.2
    /\ ~ Locals.position l3 == 0.5
    /\ (run_strategy (load_strategy StrategyEngine_init (strategy_for "X"))
          (close_table [100; 111; 123]) 1 3 None).1
       = Ok [(2%Z, Buy); (3%Z, Buy)].
Proof.
  eexists _, _, _. split; [vm_compute; reflexivity |].
  cbn -[Qlt Qeq Qmult close_table run_strategy].
  repeat split; try reflexivity.
  - intros H. discriminate H.
Qed.

(** C2 (the code does not do this on the short side).  On the falling
    path 100, 90 both trends are bear on the second row.  The short entry
    sets the stop at 90 * 1.1 = 99; the price 90 is below the stop, so it
    has not crossed it adversely, yet the row returns [Close]: the check
    is [price <= stop_loss] whatever the side. *)
Theorem short_entry_closes_below_stop :
  exists l1 l2 : Locals.t,
    (body_trace (iterrows (close_table [100; 90])) "X"
       default_ema_windows None).1 = Ok [l1; l2]
    /\ Locals.lowest_price l2 = Some (Fin 90)
    /\ Locals.stop_loss l2 = Some (Fin (90 * 1.1))
    /\ ~ 90 * 1.1 <= 90
    /\ Locals.signal l2 = Some Close
    /\ (run_strategy (load_strategy StrategyEngine_init (strategy_for "X"))
          (close_table [100; 90]) 1 2 None).1
       = Ok [(2%Z, Close)].
Proof.
  eexists _, _. split; [vm_compute; reflexivity |].
  cbn -[Qle Qmult close_table run_strategy].
  repeat split; try reflexivity.
  intros H. apply Qle_bool_iff in H. discriminate H.
Qed.

(* ================================================================= *)
(** * The trade manager *)

Lemma assoc_get_dict_set {V} (d : list (string * V)) (k : string) (v : V) :
  assoc_get (dict_set d k v) k = Some v.
Proof.
  induction d as [|[k0 v0] d IH]; simpl.
  - rewrite decide_True by reflexivity. reflexivity.
  - destruct (decide (k0 = k)) as [->|Hne]; simpl.
    + rewrite decide_True by reflexivity. reflexivity.
    + rewrite decide_False by assumption. exact IH.
Qed.

Lemma dict_set_values {V} (d : list (string * V)) (k : string) (v x : V) :
  x ∈ (dict_set d k v).*2 -> x = v \/ x ∈ d.*2.
Proof.
  induction d as [|[k0 v0] d IH]; simpl.
  - rewrite list_elem_of_singleton. auto.
  - destruct (decide (k0 = k)); simpl; rewrite !elem_of_cons; intuition.
Qed.

Lemma tracked_ratchet_refl (p : Trade) : tracked p -> ratchet p p.
Proof.
  intros Ht. split; [reflexivity | split; [assumption |]].
  unfold tracked in Ht. destruct (signal p).
  - destruct Ht as (h & _ & ->). apply fle_refl.
  - destruct Ht as (l & _ & ->). apply fle_refl.
  - reflexivity.
Qed.

Lemma ratchet_trans (p q r : Trade) : ratchet p q -> ratchet q r -> ratchet p r.
Proof.
  intros (Hs1 & Ht1 & Ho1) (Hs2 & Ht2 & Ho2).
  split; [congruence | split; [assumption |]].
  rewrite Hs1 in Ho2. destruct (signal p).
  - eapply fle_trans; eassumption.
  - eapply fle_trans; eassumption.
  - congruence.
Qed.

Lemma same_identity_refl (p : Trade) : same_identity p p.
Proof. repeat split. Qed.

Lemma same_identity_trans (p q r : Trade) :
  same_identity p q -> same_identity q r -> same_identity p r.
Proof. unfold same_identity. intuition congruence. Qed.

Lemma evolves_refl (tm : TradeManager) : evolves tm tm.
Proof.
  repeat split. intros b p Hb. exists p.
  split; [assumption |]. split; [apply same_identity_refl |].
  split; [reflexivity | apply tracked_ratchet_refl].
Qed.

Lemma evolves_trans (a b c : TradeManager) :
  evolves a b -> evolves b c -> evolves a c.
Proof.
  intros (Hl1 & Hp1 & Hn1 & H1) (Hl2 & Hp2 & Hn2 & H2).
  split; [congruence |]. split; [congruence |]. split; [congruence |].
  intros i p Hi.
  destruct (H1 i p Hi) as (q & Hq & Hid1 & Hun1 & Hr1).
  destruct (H2 i q Hq) as (r & Hr & Hid2 & Hun2 & Hr2).
  exists r. split; [assumption |].
  split; [eapply same_identity_trans; eassumption |]. split.
  - intros Hni. rewrite Hp1 in Hun2.
    rewrite (Hun2 Hni). apply Hun1, Hni.
  - intros Ht. destruct (Hr1 Ht) as (Hs & Ht' & Ho).
    eapply ratchet_trans; [exact (Hr1 Ht) | apply Hr2, Ht'].
Qed.

(** Writing [t] at address [a], where [t] is a fair successor of what is
    there and [a] is some instrument's position. *)
Lemma assign_evolves (tm : TradeManager) (a : nat) (p t : Trade) :
  store tm !! a = Some p ->
  a ∈ (positions tm).*2 ->
  same_identity p t ->
  (tracked p -> ratchet p t) ->
  evolves tm (assign a t tm).2.
Proof.
  intros Ha Hin Hid Hr. unfold assign, modify. simpl.
  split; [reflexivity |]. split; [reflexivity |].
  split; [apply length_insert |].
  intros b q Hb. simpl. destruct (decide (a = b)) as [<-|Hne].
  - exists t. rewrite list_lookup_insert_eq by (eapply lookup_lt_Some; eassumption).
    assert (q = p) as -> by congruence.
    split; [reflexivity |]. split; [assumption |].
    split; [intros Hni; contradiction | assumption].
  - exists q. rewrite list_lookup_insert_ne by assumption.
    split; [assumption |]. split; [apply same_identity_refl |].
    split; [reflexivity | apply tracked_ratchet_refl].
Qed.

Lemma long_step_ratchet (p : Trade) (x : float) (h : float) :
  signal p = Buy ->
  max_opt (highest_price p) x = Ok h ->
  tracked p ->
  ratchet p (set_stop_loss (set_highest p h) (fmul h (Fin 0.9))).
Proof.
  intros Hs Hm Ht. unfold tracked in Ht. rewrite Hs in Ht.
  destruct Ht as (h0 & Hh & Hst). rewrite Hh in Hm. simpl in Hm.
  destruct (py_max_Fin h0 x) as (h' & Hh' & Hle).
  rewrite Hh' in Hm. injection Hm as <-.
  unfold ratchet, tracked. simpl. rewrite Hs.
  split; [reflexivity |]. split; [exists h'; auto |].
  rewrite Hst. simpl. lra.
Qed.

Lemma short_step_ratchet (p : Trade) (x : float) (l : float) :
  signal p = Sell ->
  min_opt (lowest_price p) x = Ok l ->
  tracked p ->
  ratchet p (set_stop_loss (set_lowest p l) (fmul l (Fin 1.1))).
Proof.
  intros Hs Hm Ht. unfold tracked in Ht. rewrite Hs in Ht.
  destruct Ht as (l0 & Hl & Hst). rewrite Hl in Hm. simpl in Hm.
  destruct (py_min_Fin l0 x) as (l' & Hl' & Hle).
  rewrite Hl' in Hm. injection Hm as <-.
  unfold ratchet, tracked. simpl. rewrite Hs.
  split; [reflexivity |]. split; [exists l'; auto |].
  rewrite Hst. simpl. lra.
Qed.

Lemma update_position_evolves (price_data : Row) (item : string * nat)
    (tm : TradeManager) :
  item.2 ∈ (positions tm).*2 ->
  evolves tm (update_position price_data item tm).2.
Proof.
  destruct item as [ins a]. simpl. intros Hin.
  unfold update_position, bind, lift, deref.
  destruct (row_get price_data (ins +:+ "_1m_close")) as [x|e]; simpl;
    [| apply evolves_refl].
  destruct (store tm !! a) as [p|] eqn:Ha; simpl; [| apply evolves_refl].
  destruct (signal p) eqn:Hs; simpl.
  - destruct (max_opt (highest_price p) x) as [h|e] eqn:Hm; simpl;
      [| apply evolves_refl].
    rewrite list_insert_insert_eq.
    apply (assign_evolves tm a p _ Ha Hin); [repeat split; assumption |].
    apply long_step_ratchet with x; assumption.
  - destruct (min_opt (lowest_price p) x) as [l|e] eqn:Hm; simpl;
      [| apply evolves_refl].
    rewrite list_insert_insert_eq.
    apply (assign_evolves tm a p _ Ha Hin); [repeat split; assumption |].
    apply short_step_ratchet with x; assumption.
  - apply evolves_refl.
Qed.

Lemma for_each_evolves (price_data : Row) (items : list (string * nat))
    (tm : TradeManager) :
  items.*2 ⊆ (positions tm).*2 ->
  evolves tm (for_each items (update_position price_data) tm).2.
Proof.
  revert tm. induction items as [|item items IH]; intros tm Hsub; simpl.
  - apply evolves_refl.
  - assert (Hstep : evolves tm (update_position price_data item tm).2).
    { apply update_position_evolves. apply Hsub. simpl. left. }
    unfold bind.
    destruct (update_position price_data item tm) as [[[]|e] tm1]; simpl in *;
      [| assumption].
    eapply evolves_trans; [exact Hstep |].
    apply IH. destruct Hstep as (_ & -> & _).
    intros y Hy. apply Hsub. simpl. right. assumption.
Qed.

Lemma update_stop_loss_evolves (t : Z) (price_data : Row) (tm : TradeManager) :
  evolves tm (update_stop_loss t price_data tm).2.
Proof.
  unfold update_stop_loss, bind, get. apply for_each_evolves. reflexivity.
Qed.

Lemma update_stop_loss_all_evolves (rows : list (Z * Row)) (tm : TradeManager) :
  evolves tm (update_stop_loss_all rows tm).
Proof.
  revert tm. induction rows as [|r rows IH]; intros tm.
  - apply evolves_refl.
  - eapply evolves_trans; [apply update_stop_loss_evolves | apply IH].
Qed.

Lemma update_stop_loss_all_app (rows1 rows2 : list (Z * Row))
    (tm : TradeManager) :
  update_stop_loss_all (rows1 ++ rows2) tm
  = update_stop_loss_all rows2 (update_stop_loss_all rows1 tm).
Proof. unfold update_stop_loss_all. apply foldl_app. Qed.

Lemma log_view_alloc (s : list Trade) (x : list Trade) (l : list nat) :
  Forall (fun a => (a < length s)%nat) l ->
  (fun a => (s ++ x) !! a) <$> l = (fun a => s !! a) <$> l.
Proof.
  induction 1 as [|a l Ha _ IH]; [reflexivity |].
  rewrite !fmap_cons. f_equal; [apply lookup_app_l; assumption | exact IH].
Qed.

Lemma wf_init : wf TradeManager_init.
Proof. split; constructor. Qed.

Lemma wf_execute_trade (sg : Signal) (t : Z) (price : float) (ins : string)
    (tm : TradeManager) :
  wf tm -> wf (execute_trade sg t price ins tm).
Proof.
  intros [Hl Hp]. unfold wf, execute_trade. simpl.
  rewrite length_app. simpl. split.
  - apply Forall_app. split.
    + eapply Forall_impl; [exact Hl | simpl; intros; lia].
    + constructor; [lia | constructor].
  - apply Forall_forall. intros a Ha.
    apply dict_set_values in Ha as [->|Ha]; [lia |].
    rewrite Forall_forall in Hp. specialize (Hp a Ha). lia.
Qed.

Lemma wf_evolves (tm tm' : TradeManager) : evolves tm tm' -> wf tm -> wf tm'.
Proof.
  intros (Hl & Hp & Hn & _) Hwf. unfold wf. rewrite Hl, Hp, Hn. exact Hwf.
Qed.

(** C4, as the code has it: an entry of the log and the instrument's
    position are one and the same dict, so [update_stop_loss] writes into
    the log.  Here the logged long entry at 100 (stop 90, high 100) reads
    stop 108 and high 120 after one later price row. *)
Lemma logged_entry_is_rewritten :
  exists e e' : Trade,
    log_view tm_long_100 !! 0%nat = Some (Some e)
    /\ log_view (update_stop_loss 2 (tick 120).2 tm_long_100).2 !! 0%nat
       = Some (Some e')
    /\ stop_loss e = Fin (100 * 0.9)
    /\ stop_loss e' = Fin (120 * 0.9)
    /\ ~ feq (stop_loss e') (stop_loss e)
    /\ highest_price e = Some (Fin 100)
    /\ highest_price e' = Some (Fin 120).
Proof.
  eexists _, _. split; [vm_compute; reflexivity |].
  split; [vm_compute; reflexivity |].
  cbn -[Qmult Qeq feq]. repeat split.
  unfold feq. intros H. discriminate H.
Qed.

(** C4, amended.  In a well-formed trade manager the log only grows by
    appends: [execute_trade] leaves every logged entry as it is and adds
    the new dict at the end.  [update_stop_loss] keeps the log's list of
    entries, and in every entry the instrument, time, signal, price,
    take-profit and close price; an entry that is no instrument's current
    position is left wholly unchanged.  (The stop and the extreme of an
    entry that is a current position are rewritten in place.) *)
Theorem trade_log_append_only (tm : TradeManager) :
  wf tm ->
  (forall (sg : Signal) (t : Z) (price : float) (ins : string),
      log_view (execute_trade sg t price ins tm)
      = log_view tm ++ [Some (make_trade sg t price ins)]
      /\ wf (execute_trade sg t price ins tm))
  /\ (forall (t : Z) (row : Row),
        let tm' := (update_stop_loss t row tm).2 in
        trades_log tm' = trades_log tm
        /\ wf tm'
        /\ forall (i a : nat) (e : Trade),
             trades_log tm !! i = Some a ->
             log_view tm !! i = Some (Some e) ->
             exists e', log_view tm' !! i = Some (Some e')
                        /\ same_identity e e'
                        /\ (a ∉ (positions tm).*2 -> e' = e)).
Proof.
  intros Hwf. split.
  - intros sg t price ins. split; [| apply wf_execute_trade, Hwf].
    unfold log_view, execute_trade. simpl. rewrite fmap_app. simpl.
    rewrite (log_view_alloc _ _ _ (proj1 Hwf)).
    rewrite list_lookup_middle by reflexivity. reflexivity.
  - intros t row tm'.
    pose proof (update_stop_loss_evolves t row tm) as E. fold tm' in E.
    split; [apply E |]. split; [eapply wf_evolves; eassumption |].
    intros i a e Hi He. destruct E as (Hl & _ & _ & H).
    unfold log_view in He |- *. rewrite list_lookup_fmap in He.
    rewrite list_lookup_fmap, Hl. rewrite Hi in He |- *. simpl in He |- *.
    injection He as He.
    destruct (H a e He) as (e' & He' & Hid & Hun & _).
    exists e'. rewrite He'. auto.
Qed.

Lemma trade_log_append_only_witness :
  log_view (execute_trade Buy 2 (Fin 105) "X" tm_long_100)
  = log_view tm_long_100 ++ [Some (make_trade Buy 2 (Fin 105) "X")].
Proof.
  refine (proj1 (proj1 (trade_log_append_only tm_long_100 _)
                   Buy 2%Z (Fin 105) "X")).
  split; repeat constructor.
Defined.

(** C8, as the code has it: a second long entry for an instrument that
    already has an open long position is recorded like the first.  The log
    has two entries afterwards, and the position is the new dict, at the
    new price and with the new stop. *)
Lemma second_entry_is_recorded :
  length (log_view tm_long_100) = 1%nat
  /\ length (log_view tm_long_100_again) = 2%nat
  /\ log_view tm_long_100_again <> log_view tm_long_100
  /\ position_of tm_long_100 "X" = Some (make_trade Buy 1 (Fin 100) "X")
  /\ position_of tm_long_100_again "X" = Some (make_trade Buy 2 (Fin 105) "X")
  /\ position_of tm_long_100_again "X" <> position_of tm_long_100 "X".
Proof.
  repeat split; try reflexivity; intros H; discriminate H.
Qed.

(** C8, amended.  [execute_trade] never skips a signal: whatever positions
    are open, the log grows by exactly one entry, its last entry is the new
    dict, and the instrument's position becomes that new dict. *)
Theorem execute_trade_always_records (tm : TradeManager) (sg : Signal)
    (t : Z) (price : float) (ins : string) :
  let tm' := execute_trade sg t price ins tm in
  length (trades_log tm') = S (length (trades_log tm))
  /\ last (log_view tm') = Some (Some (make_trade sg t price ins))
  /\ position_of tm' ins = Some (make_trade sg t price ins).
Proof.
  intros tm'. unfold tm', position_of, log_view, execute_trade. simpl.
  split; [rewrite length_app; simpl; lia |]. split.
  - rewrite fmap_app. simpl. rewrite last_snoc.
    rewrite list_lookup_middle by reflexivity. reflexivity.
  - rewrite assoc_get_dict_set. simpl.
    apply list_lookup_middle. reflexivity.
Qed.

(** In a well-formed trade manager every position is in the store, so
    [update_stop_loss] never meets an address without a dict. *)
Lemma update_position_in_store (price_data : Row) (item : string * nat)
    (tm : TradeManager) :
  (item.2 < length (store tm))%nat ->
  (update_position price_data item tm).1 <> Raise AttributeError.
Proof.
  destruct item as [ins a]. simpl. intros Ha.
  apply lookup_lt_is_Some_2 in Ha as [p Hp].
  unfold update_position, bind, lift, deref, row_get.
  destruct (assoc_get price_data (ins +:+ "_1m_close")); simpl; [| discriminate].
  rewrite Hp. simpl. destruct (signal p); simpl; [| | discriminate].
  - destruct (highest_price p); simpl; discriminate.
  - destruct (lowest_price p); simpl; discriminate.
Qed.

Lemma for_each_in_store (price_data : Row) (items : list (string * nat))
    (tm : TradeManager) :
  items.*2 ⊆ (positions tm).*2 ->
  Forall (fun a => (a < length (store tm))%nat) items.*2 ->
  (for_each items (update_position price_data) tm).1 <> Raise AttributeError.
Proof.
  revert tm. induction items as [|item items IH]; intros tm Hsub Hall.
  - discriminate.
  - rewrite fmap_cons in Hall. apply Forall_cons in Hall as [Ha Hall].
    assert (Hstep : evolves tm (update_position price_data item tm).2).
    { apply update_position_evolves. apply Hsub. simpl. left. }
    pose proof (update_position_in_store price_data item tm Ha) as Hno.
    simpl. unfold bind.
    destruct (update_position price_data item tm) as [[[]|e] tm1];
      simpl in *; [| assumption].
    destruct Hstep as (_ & Hp & Hn & _). apply IH.
    + rewrite Hp. intros y Hy. apply Hsub. simpl. right. assumption.
    + rewrite Hn. assumption.
Qed.

Lemma update_stop_loss_in_store (t : Z) (price_data : Row) (tm : TradeManager) :
  wf tm -> (update_stop_loss t price_data tm).1 <> Raise AttributeError.
Proof.
  intros [_ Hp]. unfold update_stop_loss, bind, get.
  apply for_each_in_store; [reflexivity | assumption].
Qed.

(* ================================================================= *)
(** * The strategy engine *)

Lemma run_rows_acc {S} (f : Strategy S) (todo : list (Z * Row))
    (acc : list (Z * Signal)) (s : S) :
  run_rows f todo acc s
  = (x <~ run_rows f todo [];; ret (acc ++ x)) s.
Proof.
  revert acc s. induction todo as [|[idx row] todo IH]; intros acc s.
  - unfold bind, ret. simpl. unfold ret. rewrite app_nil_r. reflexivity.
  - simpl. unfold bind.
    destruct (f row s) as [[sg|e] s1]; [| reflexivity].
    destruct sg as [sg|]; simpl.
    + rewrite (IH (acc ++ [(idx, sg)])), (IH [(idx, sg)]). unfold bind, ret.
      destruct (run_rows f todo [] s1) as [[x|e] s2]; [| reflexivity].
      rewrite <- app_assoc. reflexivity.
    + rewrite (IH acc). unfold bind, ret.
      destruct (run_rows f todo [] s1) as [[x|e] s2]; reflexivity.
Qed.

Lemma run_rows_app {S} (f : Strategy S) (todo1 todo2 : list (Z * Row))
    (acc : list (Z * Signal)) (s : S) :
  run_rows f (todo1 ++ todo2) acc s
  = (a <~ run_rows f todo1 acc;; run_rows f todo2 a) s.
Proof.
  revert acc s. induction todo1 as [|[idx row] todo1 IH]; intros acc s.
  - reflexivity.
  - simpl. unfold bind.
    destruct (f row s) as [[sg|e] s1]; [| reflexivity].
    rewrite IH. reflexivity.
Qed.


(* ----------------------------------------------------------------- *)
(** A strategy state matters through its numbers only. *)























(* ================================================================= *)
(** * The result analyzer *)

(** C7, as the code has it.  The log the trade manager builds for a long
    round trip, an entry at 100 and a close at 110, holds two dicts, the
    entry and the close, and neither has the key [close_price], which
    nothing in the program writes: [generate_report] raises [KeyError] for
    that key at the entry and returns no report. *)
Theorem report_on_manager_log_raises :
  signal <$> round_trip_log = [Buy; Close]
  /\ price <$> round_trip_log = [Fin 100; Fin 110]
  /\ close_price <$> round_trip_log = [None; None]
  /\ generate_report round_trip_log = Raise (KeyError "close_price").
Proof. repeat split. Qed.

(* ================================================================= *)
(** * The data handler *)

(** The outer join on a small case: series with timestamps 1, 2, 3 and
    2, 3, 4 give a table over 1, 2, 3, 4 with [NaN] where a series has no
    bar. *)
Lemma merge_data_sample :
  merge_data sample_loader ["A"; "B"] ["15m"]
  = Ok (Some {| columns := ["A_15m_close"; "B_15m_close"];
                rows := [(1%Z, [Fin 10; NaN]); (2%Z, [Fin 11; Fin 20]);
                         (3%Z, [Fin 12; Fin 21]); (4%Z, [NaN; Fin 22])] |}).
Proof. reflexivity. Qed.

(** C9, as the code has it: with no instrument the loops of [merge_data]
    do not run, and the call returns [None] without raising. *)
Lemma merge_data_empty_does_not_raise :
  merge_data sample_loader [] ["15m"; "1h"] = Ok None
  /\ merge_data sample_loader ["A"; "B"] [] = Ok None
  /\ ~ (exists e, merge_data sample_loader [] ["15m"; "1h"] = Raise e)
  /\ ~ (exists e, merge_data sample_loader ["A"; "B"] [] = Raise e).
Proof.
  repeat split; intros [e H]; discriminate H.
Qed.

(** C9, amended.  With an empty list of instruments or an empty list of
    periods, [merge_data] loads nothing and returns [None]; it raises no
    error, whatever the loader. *)
Theorem merge_data_empty_returns_none
    (loader : string -> string -> result DataFrame)
    (instruments periods : list string) :
  merge_data loader [] periods = Ok None
  /\ merge_data loader instruments [] = Ok None.
Proof.
  split; [reflexivity |].
  unfold merge_data. induction instruments as [|i l IH]; [reflexivity |].
  simpl. exact IH.
Qed.

(* ================================================================= *)
(** * More on the EMA calculator *)

Lemma EMA_update_NaN (e : EMA) : value (EMA_update e NaN) = Some NaN.
Proof.
  unfold EMA_update. destruct (value e) as [[v|]|]; reflexivity.
Qed.

Lemma EMA_update_after_NaN (e : EMA) (x : float) :
  value e = Some NaN -> value (EMA_update e x) = Some NaN.
Proof.
  intros He. unfold EMA_update. rewrite He. destruct x; reflexivity.
Qed.

(** X3.  A calculator has no way back from a missing price: once it is fed
    [NaN], its value is [NaN] after every later update, whatever the
    prices. *)
Theorem EMA_NaN_is_absorbing (e : EMA) (ps : list float) :
  value (foldl EMA_update e (NaN :: ps)) = Some NaN.
Proof.
  simpl. pose proof (EMA_update_NaN e) as H.
  revert H. generalize (EMA_update e NaN). clear e.
  induction ps as [|x ps IH]; intros e He; simpl; [assumption |].
  apply IH, EMA_update_after_NaN, He.
Qed.

(* ================================================================= *)
(** * More on the reference strategy: when a call returns *)

Lemma fed_add (price : float) (n m : nat) (e : EMA) :
  fed price m (fed price n e) = fed price (m + n) e.
Proof. unfold fed. symmetry. apply Nat.iter_add. Qed.


Lemma advanced_refl (price : float) (d : gmap string EMA) :
  advanced price [] d d.
Proof.
  intros k. destruct (d !! k) as [e|] eqn:E.
  - exists 0%nat. split; [reflexivity | intros H; inversion H].
  - split; [reflexivity | intros H; inversion H].
Qed.

Lemma advanced_trans (price : float) (ks1 ks2 : list string)
    (d d1 d2 : gmap string EMA) :
  advanced price ks1 d d1 -> advanced price ks2 d1 d2 ->
  advanced price (ks1 ++ ks2) d d2.
Proof.
  intros H1 H2 k. specialize (H1 k). specialize (H2 k).
  destruct (d !! k) as [e|].
  - destruct H1 as (n1 & E1 & Hn1). rewrite E1 in H2.
    destruct H2 as (n2 & E2 & Hn2). exists (n2 + n1)%nat.
    rewrite E2, fed_add. split; [reflexivity |].
    rewrite elem_of_app. intros [Hk|Hk]; [apply Hn1 in Hk | apply Hn2 in Hk]; lia.
  - destruct H1 as [E1 Hk1]. rewrite E1 in H2. destruct H2 as [E2 Hk2].
    split; [assumption |]. rewrite elem_of_app. tauto.
Qed.

Lemma advanced_step (price : float) (k : string) (e : EMA)
    (d : gmap string EMA) :
  d !! k = Some e ->
  advanced price [k] d (<[k := EMA_update e price]> d).
Proof.
  intros Hk k'. destruct (decide (k = k')) as [<-|Hne].
  - rewrite Hk, lookup_insert_eq. exists 1%nat. split; [reflexivity | lia].
  - rewrite lookup_insert_ne by assumption.
    destruct (d !! k') as [e'|].
    + exists 0%nat. split; [reflexivity |].
      rewrite list_elem_of_singleton. congruence.
    + split; [reflexivity |]. rewrite list_elem_of_singleton. congruence.
Qed.

Lemma advanced_is_Some (price : float) (ks : list string)
    (d d' : gmap string EMA) (k : string) :
  advanced price ks d d' -> is_Some (d !! k) -> is_Some (d' !! k).
Proof.
  intros H [e E]. specialize (H k). rewrite E in H.
  destruct H as (n & -> & _). eauto.
Qed.

(** The update loop, lines 26-28: on a dict that has the calculators of
    every window it returns, and every calculator named for a window has
    been fed the price at least once. *)
Lemma update_calculators_spec (instrument : string) (price : float)
    (ws : list Z) (d : gmap string EMA) :
  (forall w, w ∈ ws ->
     is_Some (d !! key_15m_ema instrument w)
     /\ is_Some (d !! key_1h_ema instrument w)) ->
  exists d',
    update_calculators instrument ws price (Some d) = (Ok tt, Some d')
    /\ advanced price (calculator_keys instrument ws) d d'.
Proof.
  unfold update_calculators. revert d.
  induction ws as [|w ws IH]; intros d Hd.
  - exists d. split; [reflexivity | apply advanced_refl].
  - destruct (Hd w) as [[e15 E15] H1h]; [left |].
    pose proof (advanced_step price _ _ _ E15) as A1.
    destruct (advanced_is_Some _ _ _ _ _ A1 H1h) as [e1h E1h].
    pose proof (advanced_step price _ _ _ E1h) as A2.
    pose proof (advanced_trans _ _ _ _ _ _ A1 A2) as A12.
    destruct (IH (<[key_1h_ema instrument w := EMA_update e1h price]>
                    (<[key_15m_ema instrument w := EMA_update e15 price]> d)))
      as (d' & Hrun & A3).
    { intros w' Hw'. destruct (Hd w') as [Ha Hb]; [right; assumption |].
      split; eapply advanced_is_Some; eassumption. }
    exists d'. split.
    + simpl. unfold bind at 1. unfold bind at 1. unfold bind at 1.
      unfold calc_get at 1. rewrite E15. unfold calc_set at 1.
      unfold bind at 1. unfold bind at 1. unfold calc_get at 1.
      rewrite E1h. unfold calc_set at 1. exact Hrun.
    + exact (advanced_trans _ _ _ _ _ _ A12 A3).
Qed.







Lemma row_get_is_Some (row : Row) (key : string) :
  is_Some (assoc_get row key) -> exists price, row_get row key = Ok price.
Proof. unfold row_get. intros [v ->]. eauto. Qed.







(* ================================================================= *)
(** * A missing close *)









(* ================================================================= *)
(** * The signal as a function of the trends *)

(** X7.  The price and the two trends decide the signal, by one
    comparison: when both trends are bull the call returns [Close] if
    [price <= price * 0.9] and [Buy] otherwise; when both are bear it
    returns [Close] if [price <= price * 1.1] and [Sell] otherwise; when
    they do not agree it returns [None].  The tiers of the two chains play
    no part.  In particular no call on a price of 0 or more returns
    [Sell]. *)
Theorem signal_follows_trends (row : Row) (instrument : string) (ws : list Z)
    (st : StrategyState) (price : float) (major minor : option Trend)
    (l : Locals.t) :
  (strategy_body row instrument ws st).1 = Ok (price, major, minor, l) ->
  (ema_trend_strategy row instrument ws st).1
  = Ok (signal_of_trends price major minor)
  /\ (forall p, price = Fin p -> 0 <= p ->
        (ema_trend_strategy row instrument ws st).1 <> Ok (Some Sell)).
Proof.
  intros Hbody.
  pose proof (strategy_signal _ _ _ _ _ Hbody) as Hsig.
  apply strategy_body_logic in Hbody. rewrite Hsig. simpl.
  assert (E : Locals.signal l = signal_of_trends price major minor).
  { destruct price as [p|].
    - destruct major as [[|]|], minor as [[|]|];
        try (rewrite trade_logic_not_aligned in Hbody by reflexivity;
             injection Hbody as <-; reflexivity).
      + rewrite trade_logic_bull in Hbody. injection Hbody as <-.
        cbn -[Qmult Qle_bool]. destruct (Qle_bool p (p * 0.9)); reflexivity.
      + rewrite trade_logic_bear in Hbody. injection Hbody as <-.
        cbn -[Qmult Qle_bool]. destruct (Qle_bool p (p * 1.1)); reflexivity.
    - destruct major as [[|]|], minor as [[|]|];
        injection Hbody as <-; reflexivity. }
  rewrite E. split; [reflexivity |].
  intros p -> Hp.
  destruct major as [[|]|], minor as [[|]|]; cbn -[Qmult Qle_bool];
    try discriminate.
  - destruct (Qle_bool p (p * 0.9)); discriminate.
  - assert (Hle : Qle_bool p (p * 1.1) = true) by (apply Qle_bool_iff; lra).
    rewrite Hle. discriminate.
Qed.

Lemma signal_follows_trends_witness :
  (ema_trend_strategy [("X_15m_close", Fin 111)] "X" default_ema_windows
     state_after_100).1 = Ok (Some Buy).
Proof.
  refine (proj1 (signal_follows_trends [("X_15m_close", Fin 111)] "X"
                   default_ema_windows state_after_100 (Fin 111)
                   (Some bull) (Some bull)
                   (Locals.mk (Some Buy) 0.2 (Some (Fin (111 * 0.9))) None
                      (Some (Fin 111)) None) _)).
  vm_compute. reflexivity.
Defined.

(* ================================================================= *)
(** * More on the strategy engine *)

Lemma assoc_get_zip_None {V} (cols : list string) (cells : list V)
    (key : string) :
  key ∉ cols -> assoc_get (zip cols cells) key = None.
Proof.
  revert cells. induction cols as [|c cols IH]; intros cells Hk; [reflexivity |].
  apply not_elem_of_cons in Hk as [Hne Hk].
  destruct cells as [|v cells]; [reflexivity |]. simpl.
  rewrite decide_False by congruence. apply IH, Hk.
Qed.

(** X8.  On a table whose index is in ascending order and which has no
    15-minute close column for the instrument, a run over a time range
    that holds at least one row raises [KeyError] for that column at the
    first row, returns no signal, and leaves the strategy state untouched:
    no calculator is created or updated. *)
Theorem run_without_close_column_raises (instrument : string) (ws : list Z)
    (data : DataFrame) (start_time end_time : Z) (st : StrategyState) :
  ascending (index data) ->
  key_15m_close instrument ∉ columns data ->
  rows (loc_slice data start_time end_time) <> [] ->
  run_strategy (load_strategy StrategyEngine_init
                  (strategy_with instrument ws))
    data start_time end_time st
  = (Raise (KeyError (key_15m_close instrument)), st).
Proof.
  intros _ Hcol Hrows. unfold run_strategy, load_strategy. simpl.
  unfold iterrows.
  destruct (rows (loc_slice data start_time end_time)) as [|[idx cells] rest];
    [contradiction |].
  rewrite fmap_cons. simpl.
  unfold bind at 1, strategy_with at 1, ema_trend_strategy, strategy_body.
  unfold bind, lift, row_get.
  rewrite (assoc_get_zip_None _ _ _ Hcol). reflexivity.
Qed.

Lemma run_without_close_column_raises_witness :
  run_strategy (load_strategy StrategyEngine_init
                  (strategy_with "Y" default_ema_windows))
    (close_table [100; 111]) 1 2 None
  = (Raise (KeyError (key_15m_close "Y")), None).
Proof.
  apply run_without_close_column_raises.
  - simpl. repeat constructor; lia.
  - simpl. intros H. apply list_elem_of_singleton in H. discriminate H.
  - simpl. discriminate.
Defined.

Lemma run_rows_times {S} (f : Strategy S) (todo : list (Z * Row))
    (acc sigs : list (Z * Signal)) (s s' : S) :
  run_rows f todo acc s = (Ok sigs, s') ->
  exists new, sigs = acc ++ new /\ new.*1 `sublist_of` todo.*1.
Proof.
  revert acc s. induction todo as [|[idx row] todo IH]; intros acc s Hrun.
  - injection Hrun as <- <-. exists []. rewrite app_nil_r.
    split; [reflexivity | constructor].
  - simpl in Hrun. unfold bind in Hrun.
    destruct (f row s) as [[sg|e] s1]; [| discriminate].
    apply IH in Hrun as (new & -> & Hsub). destruct sg as [sg|].
    + exists ((idx, sg) :: new). rewrite <- app_assoc.
      split; [reflexivity |]. rewrite !fmap_cons. simpl.
      apply sublist_skip, Hsub.
    + exists new. split; [reflexivity |]. rewrite fmap_cons.
      apply sublist_cons, Hsub.
Qed.

Lemma iterrows_index (df : DataFrame) : (iterrows df).*1 = index df.
Proof.
  unfold iterrows, index. rewrite <- list_fmap_compose. reflexivity.
Qed.

Lemma ascending_sublist (l k : list Z) :
  l `sublist_of` k -> ascending k -> ascending l.
Proof.
  induction 1 as [|x l k Hsub IH|x l k Hsub IH]; intros Hasc.
  - exact I.
  - destruct Hasc as [Hx Hk]. split; [| apply IH, Hk].
    apply Forall_forall. intros y Hy. rewrite Forall_forall in Hx.
    apply Hx. eapply elem_of_sublist; eassumption.
  - apply IH, Hasc.
Qed.

(** X9.  On a table whose index is in ascending order, whatever the
    strategy, the signals of a run are stamped with timestamps of the
    table, in table order and each row at most once; every one lies in the
    requested time range, and the signals come out in ascending order of
    time. *)
Theorem signals_are_stamped_in_range {S} (f : Strategy S) (data : DataFrame)
    (start_time end_time : Z) (s s' : S) (sigs : list (Z * Signal)) :
  ascending (index data) ->
  run_strategy (load_strategy StrategyEngine_init f)
    data start_time end_time s = (Ok sigs, s') ->
  sigs.*1 `sublist_of` index data
  /\ Forall (fun t => (start_time <= t <= end_time)%Z) sigs.*1
  /\ ascending sigs.*1.
Proof.
  unfold run_strategy, load_strategy. simpl. intros Hasc Hrun.
  apply run_rows_times in Hrun as (new & -> & Hsub). simpl.
  rewrite iterrows_index in Hsub.
  assert (Hin : Forall (fun t => (start_time <= t <= end_time)%Z)
                  (index (loc_slice data start_time end_time))).
  { unfold index, loc_slice. simpl. apply Forall_fmap.
    apply Forall_forall. intros r Hr.
    apply list_elem_of_filter in Hr as [Hr _]. exact Hr. }
  assert (Hall : new.*1 `sublist_of` index data).
  { etrans; [exact Hsub |]. unfold index, loc_slice. simpl.
    apply fmap_sublist, sublist_filter. }
  split; [exact Hall | split].
  - apply Forall_forall. intros t Ht.
    rewrite Forall_forall in Hin. apply Hin.
    eapply elem_of_sublist; eassumption.
  - apply (ascending_sublist _ _ Hall Hasc).
Qed.

Lemma signals_are_stamped_in_range_witness :
  [2%Z; 3%Z] `sublist_of` index (close_table [100; 111; 123; 90])
  /\ Forall (fun t => (1 <= t <= 3)%Z) [2%Z; 3%Z]
  /\ ascending [2%Z; 3%Z].
Proof.
  refine (signals_are_stamped_in_range (strategy_for "X")
            (close_table [100; 111; 123; 90]) 1 3 None _
            [(2%Z, Buy); (3%Z, Buy)] _ _).
  - simpl. repeat constructor; lia.
  - vm_compute. reflexivity.
Defined.

Lemma filter_above_nil (lo hi x : Z) (l : list (Z * list float)) :
  (hi < x)%Z ->
  Forall (fun y => (x <= y)%Z) l.*1 ->
  filter (fun r : Z * list float => (lo <= r.1 <= hi)%Z) l = [].
Proof.
  intros Hx. induction l as [|r l IH]; intros Hall; [reflexivity |].
  rewrite fmap_cons in Hall. apply Forall_cons in Hall as [Hr Hall].
  rewrite filter_cons_False by lia. apply IH, Hall.
Qed.

Lemma filter_range_split (s m e : Z) (l : list (Z * list float)) :
  (s <= m + 1)%Z -> (m <= e)%Z ->
  ascending l.*1 ->
  filter (fun r : Z * list float => (s <= r.1 <= e)%Z) l
  = filter (fun r : Z * list float => (s <= r.1 <= m)%Z) l
    ++ filter (fun r : Z * list float => (m + 1 <= r.1 <= e)%Z) l.
Proof.
  intros Hsm Hme. induction l as [|r l IH]; intros Hasc; [reflexivity |].
  rewrite fmap_cons in Hasc. destruct Hasc as [Hr Hasc].
  specialize (IH Hasc).
  destruct (decide (s <= r.1 <= e)%Z) as [Hin|Hout].
  - rewrite (filter_cons_True _ r l Hin).
    destruct (decide (r.1 <= m)%Z) as [Hlow|Hhigh].
    + rewrite (filter_cons_True (fun r => (s <= r.1 <= m)%Z)) by lia.
      rewrite (filter_cons_False (fun r => (m + 1 <= r.1 <= e)%Z)) by lia.
      rewrite IH. reflexivity.
    + rewrite (filter_cons_False (fun r => (s <= r.1 <= m)%Z)) by lia.
      rewrite (filter_cons_True (fun r => (m + 1 <= r.1 <= e)%Z)) by lia.
      rewrite IH. rewrite (filter_above_nil s m r.1 l) by (assumption || lia).
      reflexivity.
  - rewrite (filter_cons_False _ r l Hout).
    rewrite (filter_cons_False (fun r => (s <= r.1 <= m)%Z)) by lia.
    rewrite (filter_cons_False (fun r => (m + 1 <= r.1 <= e)%Z)) by lia.
    exact IH.
Qed.

(** X10.  A run can be cut in two.  On a table whose index is in ascending
    order, a run over [start_time .. end_time] does what a run over
    [start_time .. mid] followed, in the same process, by a run over
    [mid + 1 .. end_time] does: the same signals in the same order, the
    same final strategy state, and the same exception if one is raised. *)
Theorem run_splits_at_any_time {S} (self : StrategyEngine S)
    (data : DataFrame) (start_time mid end_time : Z) (s : S) :
  ascending (index data) ->
  (start_time <= mid + 1)%Z -> (mid <= end_time)%Z ->
  run_strategy self data start_time end_time s
  = (first <~ run_strategy self data start_time mid;;
     second <~ run_strategy self data (mid + 1) end_time;;
     ret (first ++ second)) s.
Proof.
  intros Hasc Hsm Hme. unfold run_strategy.
  destruct (strategy_function self) as [f|]; [| reflexivity].
  unfold iterrows, loc_slice. simpl.
  rewrite (filter_range_split start_time mid end_time (rows data) Hsm Hme Hasc).
  rewrite fmap_app, run_rows_app. unfold bind.
  destruct (run_rows f _ [] s) as [[first|e] s1]; [| reflexivity].
  rewrite run_rows_acc. reflexivity.
Qed.

Lemma run_splits_at_any_time_witness :
  run_strategy engine_X (close_table [100; 111; 123; 90]) 1 4 None
  = (first <~ run_strategy engine_X (close_table [100; 111; 123; 90]) 1 2;;
     second <~ run_strategy engine_X (close_table [100; 111; 123; 90])
                 (2 + 1) 4;;
     ret (first ++ second)) None.
Proof.
  apply run_splits_at_any_time.
  - simpl. repeat constructor; lia.
  - lia.
  - lia.
Defined.

(* ================================================================= *)
(** * More on the trade manager *)

Lemma assoc_get_dict_set_ne {V} (d : list (string * V)) (k k' : string)
    (v : V) :
  k <> k' -> assoc_get (dict_set d k v) k' = assoc_get d k'.
Proof.
  intros Hne. induction d as [|[k0 v0] d IH]; simpl.
  - rewrite decide_False by assumption. reflexivity.
  - destruct (decide (k0 = k)) as [->|Hk]; simpl.
    + rewrite !decide_False by assumption. reflexivity.
    + destruct (decide (k0 = k')); [reflexivity | exact IH].
Qed.

Lemma dict_set_keys {V} (d : list (string * V)) (k : string) (v : V)
    (x : string) :
  x ∈ (dict_set d k v).*1 <-> x = k \/ x ∈ d.*1.
Proof.
  induction d as [|[k0 v0] d IH]; simpl.
  - rewrite list_elem_of_singleton. rewrite elem_of_nil. tauto.
  - destruct (decide (k0 = k)) as [->|Hk]; simpl; rewrite !elem_of_cons.
    + tauto.
    + rewrite IH. tauto.
Qed.

Lemma dict_set_NoDup {V} (d : list (string * V)) (k : string) (v : V) :
  NoDup d.*1 -> NoDup (dict_set d k v).*1.
Proof.
  induction d as [|[k0 v0] d IH]; simpl; intros Hnd.
  - apply NoDup_singleton.
  - apply NoDup_cons in Hnd as [Hk0 Hnd].
    destruct (decide (k0 = k)) as [->|Hk]; simpl.
    + apply NoDup_cons. auto.
    + apply NoDup_cons. split; [| auto].
      rewrite dict_set_keys. intros [->|Hin]; contradiction.
Qed.

Lemma dict_set_elem {V} (d : list (string * V)) (k : string) (v : V)
    (x : string * V) :
  x ∈ dict_set d k v -> x = (k, v) \/ x ∈ d.
Proof.
  induction d as [|[k0 v0] d IH]; simpl.
  - rewrite list_elem_of_singleton. auto.
  - destruct (decide (k0 = k)) as [->|Hk]; rewrite !elem_of_cons; intuition.
Qed.

Lemma make_trade_well_shaped (sg : Signal) (t : Z) (price : float)
    (ins : string) :
  well_shaped (make_trade sg t price ins).
Proof. unfold well_shaped. destruct sg; simpl; eauto. Qed.

Lemma sound_init : sound TradeManager_init.
Proof.
  repeat split; simpl; try constructor.
  intros ins a H. inversion H.
Qed.

Lemma sound_execute_trade (sg : Signal) (t : Z) (price : float) (ins : string)
    (tm : TradeManager) :
  sound tm -> sound (execute_trade sg t price ins tm).
Proof.
  intros (Hlog & Hnd & Hpos & Hshape). unfold sound, execute_trade. simpl.
  rewrite length_app. simpl. repeat apply conj.
  - rewrite Hlog, Nat.add_1_r, seq_S. reflexivity.
  - apply dict_set_NoDup, Hnd.
  - intros ins' a Hin. apply dict_set_elem in Hin as [[= -> ->]|Hin].
    + exists (make_trade sg t price ins).
      split; [apply list_lookup_middle; reflexivity | reflexivity].
    + destruct (Hpos ins' a Hin) as (p & Hp & Hi). exists p.
      split; [| assumption]. rewrite lookup_app_l; [assumption |].
      eapply lookup_lt_Some, Hp.
  - apply Forall_app. split; [assumption |].
    constructor; [apply make_trade_well_shaped | constructor].
Qed.

Lemma set_long_well_shaped (p : Trade) (h s : float) :
  well_shaped p -> signal p = Buy ->
  well_shaped (set_stop_loss (set_highest p h) s).
Proof.
  intros (Hc & Ht & _) Hs. unfold well_shaped. simpl. rewrite Hs. eauto.
Qed.

Lemma set_short_well_shaped (p : Trade) (l s : float) :
  well_shaped p -> signal p = Sell ->
  well_shaped (set_stop_loss (set_lowest p l) s).
Proof.
  intros (Hc & Ht & _) Hs. unfold well_shaped. simpl. rewrite Hs. eauto.
Qed.

Lemma update_position_shaped (price_data : Row) (item : string * nat)
    (tm : TradeManager) :
  Forall well_shaped (store tm) ->
  Forall well_shaped (store (update_position price_data item tm).2).
Proof.
  destruct item as [ins a]. intros Hall.
  unfold update_position, bind, lift, deref.
  destruct (row_get price_data (ins +:+ "_1m_close")) as [x|e]; simpl;
    [| assumption].
  destruct (store tm !! a) as [p|] eqn:Ha; simpl; [| assumption].
  assert (Hp : well_shaped p).
  { rewrite Forall_forall in Hall. eapply Hall, list_elem_of_lookup_2, Ha. }
  destruct (signal p) eqn:Hs; simpl; [| | assumption].
  - destruct (max_opt (highest_price p) x) as [h|e]; simpl; [| assumption].
    rewrite list_insert_insert_eq.
    apply Forall_insert; [assumption | apply set_long_well_shaped; assumption].
  - destruct (min_opt (lowest_price p) x) as [l|e]; simpl; [| assumption].
    rewrite list_insert_insert_eq.
    apply Forall_insert; [assumption | apply set_short_well_shaped; assumption].
Qed.

Lemma for_each_shaped (price_data : Row) (items : list (string * nat))
    (tm : TradeManager) :
  Forall well_shaped (store tm) ->
  Forall well_shaped
    (store (for_each items (update_position price_data) tm).2).
Proof.
  revert tm. induction items as [|item items IH]; intros tm Hall; [assumption |].
  simpl. unfold bind.
  pose proof (update_position_shaped price_data item tm Hall) as H1.
  destruct (update_position price_data item tm) as [[[]|e] tm1]; simpl in *;
    [apply IH |]; assumption.
Qed.

Lemma sound_update_stop_loss (t : Z) (price_data : Row) (tm : TradeManager) :
  sound tm -> sound (update_stop_loss t price_data tm).2.
Proof.
  intros (Hlog & Hnd & Hpos & Hshape).
  destruct (update_stop_loss_evolves t price_data tm) as (El & Ep & En & Ecell).
  unfold sound. rewrite El, Ep, En. repeat apply conj; try assumption.
  - intros ins a Hin. destruct (Hpos ins a Hin) as (p & Hp & Hi).
    destruct (Ecell a p Hp) as (p' & Hp' & Hid & _).
    exists p'. split; [assumption |]. destruct Hid as (-> & _). assumption.
  - unfold update_stop_loss, bind, get. apply for_each_shaped, Hshape.
Qed.

Lemma reachable_from_sound (tm0 tm : TradeManager) :
  sound tm0 -> reachable_from tm0 tm -> sound tm.
Proof.
  intros H0. induction 1.
  - assumption.
  - apply sound_execute_trade. assumption.
  - apply sound_update_stop_loss. assumption.
Qed.

Lemma reachable_sound (tm : TradeManager) : reachable tm -> sound tm.
Proof. apply reachable_from_sound, sound_init. Qed.

Lemma lookup_all_addresses {A} (l : list A) :
  (fun a => l !! a) <$> seq 0 (length l) = Some <$> l.
Proof.
  apply list_eq. intros i. rewrite !list_lookup_fmap.
  destruct (decide (i < length l)%nat) as [Hlt|Hge].
  - rewrite lookup_seq_lt by assumption. simpl.
    destruct (lookup_lt_is_Some_2 l i Hlt) as [x ->]. reflexivity.
  - rewrite lookup_seq_ge by lia. rewrite lookup_ge_None_2 by lia. reflexivity.
Qed.

Lemma omap_Some {A} (l : list A) : omap (fun e => e) (Some <$> l) = l.
Proof. induction l as [|x l IH]; [reflexivity |]. simpl. f_equal. exact IH. Qed.

(** X11.  However a trade manager was driven since its creation, its log
    lists every dict ever created exactly once, in order of creation; no
    instrument has two positions; and every dict still has the shape
    [execute_trade] gave it: no [close_price] key, no take-profit, and the
    extreme of its side set. *)
Theorem reachable_states_are_sound (tm : TradeManager) :
  reachable tm ->
  log_view tm = Some <$> store tm
  /\ logged_trades tm = store tm
  /\ NoDup (positions tm).*1
  /\ Forall well_shaped (store tm).
Proof.
  intros Hr. destruct (reachable_sound tm Hr) as (Hlog & Hnd & _ & Hshape).
  assert (Hview : log_view tm = Some <$> store tm).
  { unfold log_view. rewrite Hlog. apply lookup_all_addresses. }
  repeat apply conj; try assumption.
  unfold logged_trades. rewrite Hview. apply omap_Some.
Qed.

Lemma reachable_states_are_sound_witness :
  log_view (update_stop_loss 3 (tick 120).2 tm_long_100_again).2
  = Some <$> store (update_stop_loss 3 (tick 120).2 tm_long_100_again).2.
Proof.
  refine (proj1 (reachable_states_are_sound _ _)).
  apply reachable_update, reachable_trade, reachable_trade, reachable_start.
Defined.





(** X13.  No operation removes a position or a log entry: along any series
    of [execute_trade] and [update_stop_loss] calls, a close signal
    included, an instrument that has a position keeps having one, and the
    log keeps its entries and only gets longer. *)
Theorem positions_are_never_removed (tm0 tm : TradeManager) (ins : string) :
  reachable_from tm0 tm ->
  (ins ∈ (positions tm0).*1 -> ins ∈ (positions tm).*1)
  /\ trades_log tm0 `prefix_of` trades_log tm.
Proof.
  induction 1 as [|sg t price ins' tm _ [IH1 IH2]|t row tm _ [IH1 IH2]].
  - split; [tauto | reflexivity].
  - split.
    + intros Hin. unfold execute_trade. simpl.
      apply dict_set_keys. right. apply IH1, Hin.
    + unfold execute_trade. simpl. etrans; [exact IH2 |].
      apply prefix_app_r. reflexivity.
  - destruct (update_stop_loss_evolves t row tm) as (-> & -> & _).
    split; assumption.
Qed.

Lemma positions_are_never_removed_witness :
  "X" ∈ (positions (execute_trade Close 5 (Fin 95) "X" tm_long_100)).*1.
Proof.
  refine (proj1 (positions_are_never_removed tm_long_100 _ "X" _) _).
  - apply reachable_trade, reachable_start.
  - simpl. left.
Defined.

Lemma update_position_keeps_closed (price_data : Row) (item : string * nat)
    (tm : TradeManager) (b : nat) (p : Trade) :
  store tm !! b = Some p -> signal p = Close ->
  store (update_position price_data item tm).2 !! b = Some p.
Proof.
  destruct item as [ins a]. intros Hb Hs.
  unfold update_position, bind, lift, deref.
  destruct (row_get price_data (ins +:+ "_1m_close")) as [x|e]; simpl;
    [| assumption].
  destruct (store tm !! a) as [q|] eqn:Ha; simpl; [| assumption].
  assert (Hne : signal q <> Close -> a <> b) by (intros H ->; congruence).
  destruct (signal q) eqn:Hq; simpl; [| | assumption].
  - destruct (max_opt (highest_price q) x) as [h|e]; simpl; [| assumption].
    rewrite !list_lookup_insert_ne by (apply Hne; discriminate). assumption.
  - destruct (min_opt (lowest_price q) x) as [l|e]; simpl; [| assumption].
    rewrite !list_lookup_insert_ne by (apply Hne; discriminate). assumption.
Qed.

Lemma for_each_keeps_closed (price_data : Row) (items : list (string * nat))
    (tm : TradeManager) (b : nat) (p : Trade) :
  store tm !! b = Some p -> signal p = Close ->
  store (for_each items (update_position price_data) tm).2 !! b = Some p.
Proof.
  revert tm. induction items as [|item items IH]; intros tm Hb Hs; [assumption |].
  pose proof (update_position_keeps_closed price_data item tm b p Hb Hs) as H1.
  cbn [for_each]. unfold bind.
  destruct (update_position price_data item tm) as [[[]|e] tm1];
    cbn [fst snd] in *; [apply IH |]; assumption.
Qed.

Lemma update_stop_loss_all_keeps_closed (rows : list (Z * Row))
    (tm : TradeManager) (b : nat) (p : Trade) :
  store tm !! b = Some p -> signal p = Close ->
  store (update_stop_loss_all rows tm) !! b = Some p.
Proof.
  revert tm. induction rows as [|r rows IH]; intros tm Hb Hs; [assumption |].
  apply IH; [| assumption].
  unfold update_stop_loss, bind, get. apply for_each_keeps_closed; assumption.
Qed.

(** X14.  A close signal does not flatten the position.  After
    [execute_trade] with the close signal the instrument still has a
    position: the close dict itself, with a stop at 1.1 times the price and
    no extreme.  No later [update_stop_loss] call changes it. *)
Theorem close_signal_leaves_a_position (tm0 : TradeManager) (t : Z)
    (price : float) (ins : string) (rows : list (Z * Row)) :
  let tm := execute_trade Close t price ins tm0 in
  position_of (update_stop_loss_all rows tm) ins
  = Some (make_trade Close t price ins)
  /\ stop_loss (make_trade Close t price ins) = fmul price (Fin 1.1)
  /\ highest_price (make_trade Close t price ins) = None
  /\ lowest_price (make_trade Close t price ins) = None.
Proof.
  intros tm. split; [| repeat split].
  assert (Hpos : assoc_get (positions tm) ins = Some (length (store tm0)))
    by apply assoc_get_dict_set.
  unfold position_of.
  destruct (update_stop_loss_all_evolves rows tm) as (_ & -> & _).
  rewrite Hpos. simpl.
  apply update_stop_loss_all_keeps_closed; [| reflexivity].
  unfold tm, execute_trade. simpl. apply list_lookup_middle. reflexivity.
Qed.

(* ----------------------------------------------------------------- *)
(** The position of an instrument is its latest trade. *)

Lemma filter_ext_in {A} (P Q : A -> Prop) `{!forall x, Decision (P x)}
    `{!forall x, Decision (Q x)} (l : list A) :
  (forall x, x ∈ l -> P x <-> Q x) -> filter P l = filter Q l.
Proof.
  induction l as [|x l IH]; intros Hext; [reflexivity |].
  rewrite !filter_cons.
  assert (Hx : P x <-> Q x) by (apply Hext; left).
  rewrite IH by (intros y Hy; apply Hext; right; assumption).
  destruct (decide (P x)), (decide (Q x)); tauto || reflexivity.
Qed.

Lemma latest_index_snoc (names : list string) (x ins : string) :
  latest_index (names ++ [x]) ins
  = if decide (x = ins) then Some (length names) else latest_index names ins.
Proof.
  unfold latest_index. rewrite length_app. simpl.
  rewrite Nat.add_1_r, seq_S, filter_app. simpl.
  rewrite (filter_ext_in _ (fun i => names !! i = Some ins) (seq 0 (length names))).
  2:{ intros i Hi. apply elem_of_seq in Hi.
      rewrite lookup_app_l by lia. reflexivity. }
  rewrite filter_cons, filter_nil.
  rewrite list_lookup_middle by reflexivity.
  destruct (decide (Some x = Some ins)) as [E|E];
    destruct (decide (x = ins)) as [E'|E']; try congruence.
  - apply last_snoc.
  - rewrite app_nil_r. reflexivity.
Qed.

Lemma latest_index_lt (names : list string) (ins : string) (a : nat) :
  latest_index names ins = Some a -> (a < length names)%nat.
Proof.
  unfold latest_index. intros H. apply last_Some_elem_of in H.
  apply list_elem_of_filter in H as [_ H]. apply elem_of_seq in H. lia.
Qed.

Lemma latest_for_snoc (l : list Trade) (x : Trade) (ins : string) :
  latest_for (l ++ [x]) ins
  = if decide (instrument x = ins) then Some x else latest_for l ins.
Proof.
  unfold latest_for. rewrite filter_app, filter_cons, filter_nil.
  destruct (decide (instrument x = ins)).
  - apply last_snoc.
  - rewrite app_nil_r. reflexivity.
Qed.

Lemma latest_for_index (l : list Trade) (ins : string) :
  latest_for l ins = a ← latest_index (instrument <$> l) ins; l !! a.
Proof.
  induction l as [|x l IH] using rev_ind; [reflexivity |].
  rewrite fmap_app. simpl. rewrite latest_for_snoc, latest_index_snoc.
  rewrite length_fmap.
  destruct (decide (instrument x = ins)); simpl.
  - symmetry. apply list_lookup_middle. reflexivity.
  - rewrite IH. destruct (latest_index (instrument <$> l) ins) as [a|] eqn:E;
      [| reflexivity].
    simpl. apply latest_index_lt in E. rewrite length_fmap in E.
    rewrite lookup_app_l by assumption. reflexivity.
Qed.

Lemma evolves_instruments (tm tm' : TradeManager) :
  evolves tm tm' -> instrument <$> store tm' = instrument <$> store tm.
Proof.
  intros (_ & _ & Hn & Hcell). apply list_eq. intros i.
  rewrite !list_lookup_fmap.
  destruct (store tm !! i) as [p|] eqn:E.
  - destruct (Hcell i p E) as (p' & -> & (Hi & _) & _). simpl. congruence.
  - apply lookup_ge_None in E. rewrite lookup_ge_None_2 by lia. reflexivity.
Qed.

Lemma reachable_position_index (tm : TradeManager) (ins : string) :
  reachable tm ->
  assoc_get (positions tm) ins = latest_index (instrument <$> store tm) ins.
Proof.
  induction 1 as [|sg t price ins' tm _ IH|t row tm _ IH].
  - reflexivity.
  - unfold execute_trade. simpl. rewrite fmap_app. simpl.
    rewrite latest_index_snoc, length_fmap.
    destruct (decide (ins' = ins)) as [->|Hne].
    + apply assoc_get_dict_set.
    + rewrite assoc_get_dict_set_ne by assumption. exact IH.
  - pose proof (update_stop_loss_evolves t row tm) as E.
    rewrite (evolves_instruments _ _ E). destruct E as (_ & -> & _). exact IH.
Qed.

(** X15.  On every reachable state the position of an instrument is its
    most recent entry in the log: the last dict created for that
    instrument, with the stop and extreme it has now.  An instrument that
    never traded has no position. *)
Theorem position_is_latest_trade (tm : TradeManager) (ins : string) :
  reachable tm ->
  position_of tm ins = latest_for (logged_trades tm) ins.
Proof.
  intros Hr.
  destruct (reachable_sound tm Hr) as (Hlog & _).
  assert (Hl : logged_trades tm = store tm).
  { unfold logged_trades, log_view. rewrite Hlog, lookup_all_addresses.
    apply omap_Some. }
  rewrite Hl, latest_for_index. unfold position_of.
  rewrite (reachable_position_index tm ins Hr). reflexivity.
Qed.

Lemma position_is_latest_trade_witness :
  position_of (update_stop_loss 3 (tick 120).2 tm_long_100_again).2 "X"
  = latest_for
      (logged_trades (update_stop_loss 3 (tick 120).2 tm_long_100_again).2)
      "X".
Proof.
  apply position_is_latest_trade.
  apply reachable_update, reachable_trade, reachable_trade, reachable_start.
Defined.

(* ================================================================= *)
(** * More on the result analyzer *)

Lemma compound_ratio (b : Q) (t : Trade) (r : Q) :
  price_ratio t = Some r ->
  exists b', compound (Fin b) t = Ok (Fin b') /\ b' == b * r.
Proof.
  unfold price_ratio, compound, get_close_price, fdiv.
  destruct (signal t).
  - destruct (close_price t) as [[c|]|]; try discriminate.
    destruct (price t) as [p|]; try discriminate.
    destruct (Qeq_bool p 0); [discriminate |]. intros [= <-].
    eexists. split; reflexivity.
  - destruct (close_price t) as [[c|]|]; try discriminate.
    destruct (price t) as [p|]; try discriminate. simpl.
    destruct (Qeq_bool c 0); [discriminate |]. intros [= <-].
    eexists. split; reflexivity.
  - intros [= <-]. exists b. split; [reflexivity | ring].
Qed.

Lemma fold_compound_ratio (l : list Trade) (b R : Q) :
  total_ratio l = Some R ->
  exists b', fold_result compound l (Fin b) = Ok (Fin b') /\ b' == b * R.
Proof.
  revert b R. induction l as [|t l IH]; intros b R.
  - intros [= <-]. exists b. split; [reflexivity | ring].
  - simpl. destruct (price_ratio t) as [r|] eqn:Er; [| discriminate].
    destruct (total_ratio l) as [rs|] eqn:Ers; [| discriminate].
    intros [= <-].
    destruct (compound_ratio b t r Er) as (b1 & -> & Hb1).
    destruct (IH b1 rs eq_refl) as (b' & Hrun & Hb').
    exists b'. split; [exact Hrun |]. rewrite Hb', Hb1. ring.
Qed.

(** X16.  Over a log in which every entry dict has a usable close price,
    the report compounds: the final balance is 100000 times the product of
    the factors of the trades (close over entry for a long, entry over
    close for a short, 1 for a close dict), and the total return is that
    product minus one. *)
Theorem report_is_product_of_ratios (l : list Trade) (R : Q) :
  l <> [] ->
  total_ratio l = Some R ->
  exists r : Report,
    generate_report l = Ok (Some r)
    /\ initial_balance r = Fin 100000
    /\ feq (final_balance r) (Fin (100000 * R))
    /\ feq (total_return r) (Fin (R - 1)).
Proof.
  intros Hne HR.
  destruct (fold_compound_ratio l 100000 R HR) as (b' & Hrun & Hb').
  unfold generate_report. destruct l as [|t l]; [contradiction |].
  rewrite Hrun. simpl. eexists. split; [reflexivity |].
  split; [reflexivity |]. simpl. split; [exact Hb' |].
  rewrite Hb'. field.
Qed.

Lemma report_is_product_of_ratios_witness :
  exists r : Report,
    generate_report
      [long_100_closed_110;
       mkTrade "X" 3 Sell (Fin 120) (Fin 132) None None (Some (Fin 120))
         (Some (Fin 100))]
    = Ok (Some r)
    /\ initial_balance r = Fin 100000
    /\ feq (final_balance r) (Fin (100000 * (110 / 100 * (120 / 100 * 1))))
    /\ feq (total_return r) (Fin (110 / 100 * (120 / 100 * 1) - 1)).
Proof.
  apply report_is_product_of_ratios.
  - discriminate.
  - reflexivity.
Defined.

Lemma fold_compound_raises (l : list Trade) (b : float) :
  Forall (fun p => close_price p = None) l ->
  Exists (fun p => signal p <> Close) l ->
  fold_result compound l b = Raise (KeyError "close_price").
Proof.
  induction 1 as [|p l Hp _ IH]; intros Hex; [inversion Hex |].
  simpl. unfold compound, get_close_price. rewrite Hp.
  destruct (signal p) eqn:Hs; simpl; [reflexivity | reflexivity |].
  apply IH. apply Exists_cons in Hex as [Hex|Hex]; [congruence | assumption].
Qed.

Lemma fold_compound_all_close (l : list Trade) (b : float) :
  Forall (fun p => signal p = Close) l ->
  fold_result compound l b = Ok b.
Proof.
  induction 1 as [|p l Hp _ IH]; [reflexivity |].
  simpl. unfold compound. rewrite Hp. simpl. exact IH.
Qed.

(** X17.  The log a trade manager builds cannot be analysed once it holds
    an entry signal: no operation of the manager sets [close_price], so
    [generate_report] raises [KeyError] on it.  A log of close dicts only
    gives back the initial balance. *)
Theorem report_on_reachable_log (tm : TradeManager) :
  reachable tm ->
  (Exists (fun p => signal p <> Close) (logged_trades tm) ->
   generate_report (logged_trades tm) = Raise (KeyError "close_price"))
  /\ (logged_trades tm <> [] ->
      Forall (fun p => signal p = Close) (logged_trades tm) ->
      generate_report (logged_trades tm)
      = Ok (Some {| initial_balance := Fin 100000;
                    final_balance := Fin 100000;
                    total_return := Fin ((100000 - 100000) / 100000) |})).
Proof.
  intros Hr. destruct (reachable_sound tm Hr) as (Hlog & _ & _ & Hshape).
  assert (Hl : logged_trades tm = store tm).
  { unfold logged_trades, log_view. rewrite Hlog, lookup_all_addresses.
    apply omap_Some. }
  rewrite Hl. split.
  - intros Hex. unfold generate_report.
    destruct (store tm) as [|p l] eqn:E; [inversion Hex |].
    rewrite fold_compound_raises; [reflexivity | | assumption].
    eapply Forall_impl; [exact Hshape |]. intros q Hq. apply Hq.
  - intros Hne Hall. unfold generate_report.
    destruct (store tm) as [|p l] eqn:E; [contradiction |].
    rewrite fold_compound_all_close by assumption. reflexivity.
Qed.

Lemma report_on_reachable_log_witness :
  generate_report
    (logged_trades (execute_trade Close 2 (Fin 110) "X" tm_long_100))
  = Raise (KeyError "close_price").
Proof.
  refine (proj1 (report_on_reachable_log
                   (execute_trade Close 2 (Fin 110) "X" tm_long_100) _) _).
  - apply reachable_trade, reachable_trade, reachable_start.
  - apply Exists_cons. left. discriminate.
Defined.

(* ----------------------------------------------------------------- *)
(** Feeding the same row twice. *)

Lemma with_store_same (tm : TradeManager) : with_store tm (store tm) = tm.
Proof. destruct tm. reflexivity. Qed.

Lemma update_position_unfold (price_data : Row) (ins : string) (a : nat)
    (tm : TradeManager) :
  update_position price_data (ins, a) tm
  = match row_get price_data (ins +:+ "_1m_close") with
    | Raise e => (Raise e, tm)
    | Ok x =>
        match store tm !! a with
        | None => (Raise AttributeError, tm)
        | Some p =>
            match next_position x p with
            | Raise e => (Raise e, tm)
            | Ok p' => (Ok tt, with_store tm (<[a := p']> (store tm)))
            end
        end
    end.
Proof.
  unfold update_position, bind, lift, deref, next_position.
  destruct (row_get price_data (ins +:+ "_1m_close")) as [x|e]; [| reflexivity].
  destruct (store tm !! a) as [p|] eqn:Ha; [| reflexivity].
  destruct (signal p); simpl.
  - destruct (max_opt (highest_price p) x) as [h|e]; simpl; [| reflexivity].
    unfold assign, modify, with_store. simpl.
    rewrite list_insert_insert_eq. reflexivity.
  - destruct (min_opt (lowest_price p) x) as [l|e]; simpl; [| reflexivity].
    unfold assign, modify, with_store. simpl.
    rewrite list_insert_insert_eq. reflexivity.
  - unfold ret. rewrite list_insert_id by assumption.
    rewrite with_store_same. reflexivity.
Qed.

Lemma Qlt_bool_irrefl (q : Q) : Qlt_bool q q = false.
Proof.
  destruct (Qlt_bool q q) eqn:E; [| reflexivity].
  apply Qlt_bool_iff in E. lra.
Qed.

Lemma py_max_idempotent (h x : float) : py_max (py_max h x) x = py_max h x.
Proof.
  destruct h as [h|], x as [q|]; try reflexivity.
  unfold py_max, fgtb, fltb, cmp2.
  destruct (Qlt_bool h q) eqn:E; [| rewrite E; reflexivity].
  rewrite Qlt_bool_irrefl. reflexivity.
Qed.

Lemma py_min_idempotent (l x : float) : py_min (py_min l x) x = py_min l x.
Proof.
  destruct l as [l|], x as [q|]; try reflexivity.
  unfold py_min, fltb, cmp2.
  destruct (Qlt_bool q l) eqn:E; [| rewrite E; reflexivity].
  rewrite Qlt_bool_irrefl. reflexivity.
Qed.

Lemma next_position_idempotent (x : float) (p p' : Trade) :
  next_position x p = Ok p' -> next_position x p' = Ok p'.
Proof.
  unfold next_position. destruct (signal p) eqn:Hs.
  - destruct (highest_price p) as [h|]; [| discriminate]. simpl.
    intros [= <-]. simpl. rewrite Hs. simpl. rewrite py_max_idempotent.
    reflexivity.
  - destruct (lowest_price p) as [l|]; [| discriminate]. simpl.
    intros [= <-]. simpl. rewrite Hs. simpl. rewrite py_min_idempotent.
    reflexivity.
  - intros [= <-]. rewrite Hs. reflexivity.
Qed.

(** A position that the row leaves as it is: the loop body returns and
    changes no state. *)
Lemma update_position_settled (price_data : Row) (ins : string) (a : nat)
    (tm : TradeManager) (x : float) (p : Trade) :
  row_get price_data (ins +:+ "_1m_close") = Ok x ->
  store tm !! a = Some p ->
  next_position x p = Ok p ->
  update_position price_data (ins, a) tm = (Ok tt, tm).
Proof.
  intros Hrow Ha Hn. rewrite update_position_unfold, Hrow, Ha, Hn.
  rewrite list_insert_id by assumption. rewrite with_store_same. reflexivity.
Qed.

Lemma update_position_other (price_data : Row) (item : string * nat)
    (tm : TradeManager) (b : nat) :
  b <> item.2 ->
  store (update_position price_data item tm).2 !! b = store tm !! b.
Proof.
  destruct item as [ins a]. cbn [snd]. intros Hne.
  rewrite update_position_unfold.
  destruct (row_get price_data (ins +:+ "_1m_close")) as [x|e]; [| reflexivity].
  destruct (store tm !! a) as [p|]; [| reflexivity].
  destruct (next_position x p) as [p'|e]; [| reflexivity].
  simpl. apply list_lookup_insert_ne. congruence.
Qed.

Lemma for_each_other (price_data : Row) (items : list (string * nat))
    (tm : TradeManager) (b : nat) :
  b ∉ items.*2 ->
  store (for_each items (update_position price_data) tm).2 !! b = store tm !! b.
Proof.
  revert tm. induction items as [|item items IH]; intros tm Hb; [reflexivity |].
  rewrite fmap_cons in Hb. apply not_elem_of_cons in Hb as [Hne Hb].
  pose proof (update_position_other price_data item tm b Hne) as H1.
  cbn [for_each]. unfold bind.
  destruct (update_position price_data item tm) as [[[]|e] tm1];
    cbn [fst snd] in *; [| assumption].
  rewrite IH by assumption. assumption.
Qed.

Lemma for_each_idempotent (price_data : Row) (items : list (string * nat))
    (tm : TradeManager) :
  NoDup items.*2 ->
  for_each items (update_position price_data)
    (for_each items (update_position price_data) tm).2
  = for_each items (update_position price_data) tm.
Proof.
  revert tm. induction items as [|[ins a] items IH]; intros tm Hnd;
    [reflexivity |].
  rewrite fmap_cons in Hnd. apply NoDup_cons in Hnd as [Ha Hnd]. simpl in Ha.
  cbn [for_each]. unfold bind at 2 3.
  rewrite (update_position_unfold price_data ins a tm).
  destruct (row_get price_data (ins +:+ "_1m_close")) as [x|e] eqn:Hrow.
  2:{ cbn [snd]. unfold bind. rewrite update_position_unfold, Hrow.
      reflexivity. }
  destruct (store tm !! a) as [p|] eqn:Hp.
  2:{ cbn [snd]. unfold bind. rewrite update_position_unfold, Hrow, Hp.
      reflexivity. }
  destruct (next_position x p) as [p'|e] eqn:Hn.
  2:{ cbn [snd]. unfold bind. rewrite update_position_unfold, Hrow, Hp, Hn.
      reflexivity. }
  set (tma := with_store tm (<[a:=p']> (store tm))).
  assert (Hcell : store (for_each items (update_position price_data) tma).2
                    !! a = Some p').
  { rewrite for_each_other by assumption. unfold tma. simpl.
    apply list_lookup_insert_eq. eapply lookup_lt_Some, Hp. }
  unfold bind.
  rewrite (update_position_settled price_data ins a _ x p' Hrow Hcell
             (next_position_idempotent x p p' Hn)).
  rewrite (IH tma Hnd).
  destruct (for_each items (update_position price_data) tma) as [r s].
  reflexivity.
Qed.

Lemma sound_addresses_NoDup (tm : TradeManager) :
  sound tm -> NoDup (positions tm).*2.
Proof.
  intros (_ & Hnd & Hpos & _). revert Hnd Hpos.
  generalize (positions tm) as d.
  induction d as [|[ins a] d IH]; intros Hnd Hpos; [constructor |].
  simpl in Hnd |- *. apply NoDup_cons in Hnd as [Hins Hnd].
  apply NoDup_cons. split.
  - intros Hin. apply list_elem_of_fmap in Hin as ([ins' a'] & Ha & Hin).
    simpl in Ha. subst a'.
    destruct (Hpos ins a) as (p & Hp & Hi); [left |].
    destruct (Hpos ins' a) as (p' & Hp' & Hi'); [right; assumption |].
    assert (E : ins' = ins) by congruence. rewrite E in Hin.
    apply Hins. apply list_elem_of_fmap. exists (ins, a).
    split; [reflexivity | assumption].
  - apply IH; [assumption |]. intros ins' a' Hin. apply Hpos. right. assumption.
Qed.

(* ----------------------------------------------------------------- *)
(** The stop of an open position. *)

Lemma assoc_get_elem {V} (l : list (string * V)) (k : string) (v : V) :
  assoc_get l k = Some v -> (k, v) ∈ l.
Proof.
  induction l as [|[k' v'] l IH]; simpl; [discriminate |].
  destruct (decide (k' = k)) as [->|Hne].
  - intros [= ->]. left.
  - intros H. right. apply IH, H.
Qed.

(** In a reachable state every dict entered at a finite price is
    tracked. *)
Lemma reachable_tracked (tm : TradeManager) :
  reachable tm ->
  forall (b : nat) (p : Trade) (q : Q),
    store tm !! b = Some p -> price p = Fin q -> tracked p.
Proof.
  unfold reachable.
  induction 1 as [|sg t x ins tm Hr IH|t row tm Hr IH]; intros b p q Hb Hq.
  - discriminate Hb.
  - unfold execute_trade in Hb. simpl in Hb.
    apply lookup_app_Some in Hb as [Hb|[_ Hb]]; [eapply IH; eassumption |].
    apply list_lookup_singleton_Some in Hb as [_ <-].
    simpl in Hq. subst x. unfold tracked. destruct sg; simpl; eauto.
  - destruct (update_stop_loss_evolves t row tm) as (_ & _ & Hlen & Hcells).
    destruct (store tm !! b) as [p0|] eqn:E.
    + destruct (Hcells b p0 E) as (p' & Hp' & Hid & _ & Hrat).
      rewrite Hb in Hp'. injection Hp' as <-.
      destruct Hid as (_ & _ & _ & Hprice & _).
      apply Hrat. eapply IH; [exact E |]. rewrite <- Hprice. exact Hq.
    + apply lookup_ge_None in E. apply lookup_lt_Some in Hb. lia.
Qed.

(** What a call that returns has done to the dict of one position. *)
Lemma for_each_cell (price_data : Row) (items : list (string * nat))
    (tm : TradeManager) (ins : string) (a : nat) (p : Trade) :
  NoDup items.*2 ->
  (for_each items (update_position price_data) tm).1 = Ok tt ->
  (ins, a) ∈ items ->
  store tm !! a = Some p ->
  exists x p',
    row_get price_data (ins +:+ "_1m_close") = Ok x
    /\ next_position x p = Ok p'
    /\ store (for_each items (update_position price_data) tm).2 !! a
       = Some p'.
Proof.
  revert tm. induction items as [|[i0 a0] items IH]; intros tm Hnd Hok Hin Hp.
  - apply elem_of_nil in Hin. contradiction.
  - rewrite fmap_cons in Hnd. apply NoDup_cons in Hnd as [Ha0 Hnd].
    simpl in Ha0. cbn [for_each] in Hok |- *. unfold bind in Hok |- *.
    rewrite (update_position_unfold price_data i0 a0 tm) in Hok |- *.
    destruct (row_get price_data (i0 +:+ "_1m_close")) as [x0|e] eqn:Hrow;
      [| discriminate Hok].
    destruct (store tm !! a0) as [p0|] eqn:Hp0; [| discriminate Hok].
    destruct (next_position x0 p0) as [p0'|e] eqn:Hn; [| discriminate Hok].
    apply elem_of_cons in Hin as [Heq|Hin].
    + injection Heq as -> ->. rewrite Hp in Hp0. injection Hp0 as <-.
      exists x0, p0'. split; [assumption |]. split; [assumption |].
      rewrite for_each_other by assumption. simpl.
      apply list_lookup_insert_eq. eapply lookup_lt_Some, Hp.
    + assert (Hne : a <> a0).
      { intros ->. apply Ha0. apply list_elem_of_fmap. exists (ins, a0).
        split; [reflexivity | assumption]. }
      apply (IH _ Hnd Hok Hin). simpl.
      rewrite list_lookup_insert_ne by congruence. exact Hp.
Qed.

(** C3.  Take any reachable state of the trade manager and any
    instrument's open position that was entered at a finite price; its
    stop is tied to its extreme price.  A call of [update_stop_loss] that
    returns, on a row where the instrument closes at [x], moves a long
    position's highest price to [x] and its stop from [h * 0.9] up to
    [x * 0.9] when [x] is a new high, above the highest price [h] so far,
    and leaves the position as it is when it is not; symmetrically a
    short position's lowest price moves to [x] and its stop down to
    [x * 1.1] on a new low; a close dict is never changed.
    Across any series of calls, on any rows and whatever each call
    returns, the position stays the instrument's, and between any earlier
    and any later point of the series the stop of a long position has not
    decreased and the stop of a short position has not increased. *)
Theorem stop_loss_only_tightens (tm : TradeManager) (ins : string) (a : nat)
    (p : Trade) (q : Q) :
  reachable tm ->
  assoc_get (positions tm) ins = Some a ->
  store tm !! a = Some p ->
  price p = Fin q ->
  (forall (t : Z) (row : Row) (x : Q),
      row_get row (ins +:+ "_1m_close") = Ok (Fin x) ->
      (update_stop_loss t row tm).1 = Ok tt ->
      exists p',
        store (update_stop_loss t row tm).2 !! a = Some p'
        /\ match signal p with
           | Buy =>
               exists h, highest_price p = Some (Fin h)
                 /\ stop_loss p = Fin (h * 0.9)
                 /\ if Qlt_bool h x
                    then p' = set_stop_loss (set_highest p (Fin x))
                                (Fin (x * 0.9))
                         /\ h < x /\ h * 0.9 <= x * 0.9
                    else p' = p
           | Sell =>
               exists l, lowest_price p = Some (Fin l)
                 /\ stop_loss p = Fin (l * 1.1)
                 /\ if Qlt_bool x l
                    then p' = set_stop_loss (set_lowest p (Fin x))
                                (Fin (x * 1.1))
                         /\ x < l /\ x * 1.1 <= l * 1.1
                    else p' = p
           | Close => p' = p
           end)
  /\ (forall rows1 rows2 : list (Z * Row),
        assoc_get (positions (update_stop_loss_all rows1 tm)) ins = Some a
        /\ exists p1 p2 : Trade,
             store (update_stop_loss_all rows1 tm) !! a = Some p1
             /\ store (update_stop_loss_all (rows1 ++ rows2) tm) !! a
                = Some p2
             /\ signal p1 = signal p /\ signal p2 = signal p
             /\ tracked p1 /\ tracked p2
             /\ match signal p with
                | Buy => fle (stop_loss p) (stop_loss p1)
                         /\ fle (stop_loss p1) (stop_loss p2)
                | Sell => fle (stop_loss p2) (stop_loss p1)
                          /\ fle (stop_loss p1) (stop_loss p)
                | Close => stop_loss p1 = stop_loss p
                           /\ stop_loss p2 = stop_loss p
                end).
Proof.
  intros Hr Hpos Hp Hq.
  pose proof (reachable_tracked tm Hr a p q Hp Hq) as Ht.
  split.
  - intros t row x Hrow Hok.
    pose proof (sound_addresses_NoDup tm (reachable_sound tm Hr)) as Hnd.
    unfold update_stop_loss, bind, get in Hok |- *. cbn [fst snd] in Hok |- *.
    destruct (for_each_cell row (positions tm) tm ins a p Hnd Hok
                (assoc_get_elem _ _ _ Hpos) Hp)
      as (x' & p' & Hrow' & Hn & Hp').
    rewrite Hrow in Hrow'. injection Hrow' as <-.
    exists p'. split; [exact Hp' |].
    unfold tracked in Ht. unfold next_position in Hn.
    destruct (signal p) eqn:Hs.
    + destruct Ht as (h & Hh & Hst). exists h.
      split; [assumption |]. split; [assumption |].
      rewrite Hh in Hn. simpl in Hn. unfold py_max, fgtb, fltb, cmp2 in Hn.
      destruct (Qlt_bool h x) eqn:E; injection Hn as <-.
      * split; [reflexivity |]. apply Qlt_bool_iff in E. split; lra.
      * destruct p. simpl in *. subst. reflexivity.
    + destruct Ht as (l & Hl & Hst). exists l.
      split; [assumption |]. split; [assumption |].
      rewrite Hl in Hn. simpl in Hn. unfold py_min, fltb, cmp2 in Hn.
      destruct (Qlt_bool x l) eqn:E; injection Hn as <-.
      * split; [reflexivity |]. apply Qlt_bool_iff in E. split; lra.
      * destruct p. simpl in *. subst. reflexivity.
    + injection Hn as <-. reflexivity.
  - intros rows1 rows2.
    pose proof (update_stop_loss_all_evolves rows1 tm) as E1.
    pose proof (update_stop_loss_all_evolves rows2
                  (update_stop_loss_all rows1 tm)) as E2.
    rewrite <- update_stop_loss_all_app in E2.
    destruct E1 as (_ & Hpos1 & _ & H1).
    destruct E2 as (_ & _ & _ & H2).
    split; [rewrite Hpos1; exact Hpos |].
    destruct (H1 a p Hp) as (p1 & Hp1 & _ & _ & Hr1).
    destruct (Hr1 Ht) as (Hs1 & Ht1 & Ho1).
    destruct (H2 a p1 Hp1) as (p2 & Hp2 & _ & _ & Hr2).
    destruct (Hr2 Ht1) as (Hs2 & Ht2 & Ho2).
    exists p1, p2. rewrite Hs1 in Ho2.
    repeat (split; [assumption || congruence |]).
    destruct (signal p); split; try assumption. congruence.
Qed.

Lemma stop_loss_only_tightens_witness :
  (exists p', store (update_stop_loss 2 (tick 120).2 tm_long_100).2 !! 0%nat
              = Some p'
              /\ highest_price p' = Some (Fin 120)
              /\ stop_loss p' = Fin (120 * 0.9)
              /\ 100 < 120 /\ 100 * 0.9 <= 120 * 0.9)
  /\ (exists p', store (update_stop_loss 3 (tick 90).2
                          (update_stop_loss 2 (tick 120).2 tm_long_100).2).2
                   !! 0%nat = Some p'
                 /\ highest_price p' = Some (Fin 120)
                 /\ stop_loss p' = Fin (120 * 0.9))
  /\ (exists p1 p2 : Trade,
        store (update_stop_loss_all [tick 120] tm_long_100) !! 0%nat
        = Some p1
        /\ store (update_stop_loss_all ([tick 120] ++ [tick 90]) tm_long_100)
             !! 0%nat = Some p2
        /\ fle (Fin (100 * 0.9)) (stop_loss p1)
        /\ fle (stop_loss p1) (stop_loss p2)).
Proof.
  assert (Hr : reachable tm_long_100)
    by apply reachable_trade, reachable_start.
  destruct (stop_loss_only_tightens tm_long_100 "X" 0
              (make_trade Buy 1 (Fin 100) "X") 100 Hr eq_refl eq_refl eq_refl)
    as [Hcall Hseries].
  split; [| split].
  - destruct (Hcall 2%Z (tick 120).2 120 eq_refl eq_refl)
      as (p' & Hp' & h & Hh & _ & Hnew).
    injection Hh as <-. destruct Hnew as (-> & Hlt & Hle).
    eexists. split; [exact Hp' |].
    split; [reflexivity | split; [reflexivity | split; assumption]].
  - destruct (stop_loss_only_tightens
                (update_stop_loss 2 (tick 120).2 tm_long_100).2 "X" 0
                (set_stop_loss
                   (set_highest (make_trade Buy 1 (Fin 100) "X") (Fin 120))
                   (Fin (120 * 0.9)))
                100 (reachable_update _ _ _ _ Hr) eq_refl eq_refl eq_refl)
      as [Hfall _].
    destruct (Hfall 3%Z (tick 90).2 90 eq_refl eq_refl)
      as (p' & Hp' & h & Hh & _ & Hsame).
    injection Hh as <-. simpl in Hsame. rewrite Hsame in Hp'.
    eexists. split; [exact Hp' |]. split; reflexivity.
  - destruct (Hseries [tick 120] [tick 90])
      as (_ & p1 & p2 & H1 & H2 & _ & _ & _ & _ & Hle1 & Hle2).
    exists p1, p2. repeat split; assumption.
Defined.

(** X18.  [update_stop_loss] is idempotent.  On a reachable state, a second
    call with the same row returns what the first returned (normally, or
    the same [KeyError]) and changes nothing: every stop and extreme
    already accounts for that row's prices. *)
Theorem update_stop_loss_is_idempotent (t t' : Z) (price_data : Row)
    (tm : TradeManager) :
  reachable tm ->
  update_stop_loss t' price_data (update_stop_loss t price_data tm).2
  = update_stop_loss t price_data tm.
Proof.
  intros Hr. pose proof (sound_addresses_NoDup tm (reachable_sound tm Hr)) as Hnd.
  destruct (update_stop_loss_evolves t price_data tm) as (_ & Hpos & _).
  unfold update_stop_loss, bind, get in *. rewrite Hpos.
  apply for_each_idempotent, Hnd.
Qed.

Lemma update_stop_loss_is_idempotent_witness :
  update_stop_loss 4 (tick 120).2
    (update_stop_loss 3 (tick 120).2 tm_long_100_again).2
  = update_stop_loss 3 (tick 120).2 tm_long_100_again.
Proof.
  apply update_stop_loss_is_idempotent.
  apply reachable_trade, reachable_trade, reachable_start.
Defined.

(* ================================================================= *)
(** * More on the data handler *)

Lemma fold_result_app {A B} (f : B -> A -> result B) (l1 l2 : list A) (b : B) :
  fold_result f (l1 ++ l2) b
  = rbind (fold_result f l1 b) (fold_result f l2).
Proof.
  revert b. induction l1 as [|x l1 IH]; intros b; [reflexivity |].
  simpl. destruct (f b x) as [b'|e]; simpl; [apply IH | reflexivity].
Qed.

Lemma fold_result_pairs (loader : string -> string -> result DataFrame)
    (i : string) (periods : list string) (acc : option DataFrame) :
  fold_result (merge_step loader i) periods acc
  = fold_result (fun m (ip : string * string) => merge_step loader ip.1 m ip.2)
      (periods ≫= (fun p => [(i, p)])) acc.
Proof.
  revert acc. induction periods as [|p periods IH]; intros acc; [reflexivity |].
  simpl. destruct (merge_step loader i acc p); simpl; [apply IH | reflexivity].
Qed.

(** [merge_data] is one fold over the pairs, instrument by instrument and
    period by period. *)
Lemma merge_data_pairs (loader : string -> string -> result DataFrame)
    (instruments periods : list string) :
  merge_data loader instruments periods
  = fold_result (fun m (ip : string * string) => merge_step loader ip.1 m ip.2)
      (pairs instruments periods) None.
Proof.
  unfold merge_data, pairs. generalize (@None DataFrame) as acc.
  induction instruments as [|i instruments IH]; intros acc; [reflexivity |].
  cbn [fold_result mbind list_bind]. rewrite fold_result_app, fold_result_pairs.
  destruct (fold_result _ (periods ≫= (fun p => [(i, p)])) acc) as [acc'|e];
    simpl; [apply IH | reflexivity].
Qed.

Lemma merge_step_Ok (loader : string -> string -> result DataFrame)
    (i p : string) (acc r : option DataFrame) :
  merge_step loader i acc p = Ok r ->
  exists f df,
    loader i p = Ok f
    /\ r = Some df
    /\ columns df = frame_columns acc ++ pair_columns loader (i, p)
    /\ match acc with
       | None => index df = index f
       | Some m => index df = union_index (index m) (index f)
       end.
Proof.
  unfold merge_step, load_local_data, pair_columns. simpl.
  destruct (loader i p) as [f|e]; simpl; [| discriminate].
  destruct acc as [m|]; simpl.
  - unfold join_outer. destruct (overlaps _ _); [discriminate |].
    simpl. intros [= <-]. eexists f, _. repeat split.
    unfold index. simpl. rewrite <- list_fmap_compose. simpl.
    apply list_fmap_id.
  - intros [= <-]. eexists f, _. repeat split.
Qed.

Lemma fold_merge_columns (loader : string -> string -> result DataFrame)
    (l : list (string * string)) (acc r : option DataFrame) :
  fold_result (fun m (ip : string * string) => merge_step loader ip.1 m ip.2)
    l acc = Ok r ->
  Forall (fun ip : string * string => exists f, loader ip.1 ip.2 = Ok f) l
  /\ frame_columns r = frame_columns acc ++ (l ≫= pair_columns loader)
  /\ (r = None -> acc = None /\ l = []).
Proof.
  revert acc. induction l as [|[i p] l IH]; intros acc.
  - intros [= <-]. simpl. rewrite app_nil_r.
    split; [constructor |]. split; [reflexivity |]. intros ->. auto.
  - simpl. destruct (merge_step loader i acc p) as [acc'|e] eqn:E;
      [| discriminate].
    simpl. intros Hrun. destruct (IH acc' Hrun) as (Hall & Hcols & Hnone).
    apply merge_step_Ok in E as (f & df & Hf & -> & Hc & _).
    split; [| split].
    + constructor; [simpl; eauto | assumption].
    + rewrite Hcols. simpl. rewrite Hc, <- app_assoc. reflexivity.
    + intros Hr. destruct (Hnone Hr) as [H _]. discriminate H.
Qed.

Lemma pairs_nil (instruments periods : list string) :
  pairs instruments periods = [] -> instruments = [] \/ periods = [].
Proof.
  unfold pairs. destruct instruments as [|i instruments]; [auto |].
  destruct periods as [|p periods]; [auto |]. simpl. discriminate.
Qed.

(** X19.  When [merge_data] returns, the loader has returned a series for
    every (instrument, period) pair; the result is [None] only if a list
    was empty; and the columns of the table are the prefixed columns of
    the series, pair after pair, instrument by instrument and, for each
    instrument, period by period. *)
Theorem merge_data_column_layout
    (loader : string -> string -> result DataFrame)
    (instruments periods : list string) (r : option DataFrame) :
  merge_data loader instruments periods = Ok r ->
  Forall (fun ip : string * string => exists f, loader ip.1 ip.2 = Ok f)
    (pairs instruments periods)
  /\ (r = None -> instruments = [] \/ periods = [])
  /\ frame_columns r = pairs instruments periods ≫= pair_columns loader.
Proof.
  rewrite merge_data_pairs. intros Hrun.
  apply fold_merge_columns in Hrun as (Hall & Hcols & Hnone).
  split; [assumption |]. split; [| exact Hcols].
  intros Hr. apply pairs_nil. apply Hnone, Hr.
Qed.

Lemma merge_data_column_layout_witness :
  frame_columns
    (Some {| columns := ["A_15m_close"; "B_15m_close"];
             rows := [(1%Z, [Fin 10; NaN]); (2%Z, [Fin 11; Fin 20]);
                      (3%Z, [Fin 12; Fin 21]); (4%Z, [NaN; Fin 22])] |})
  = pairs ["A"; "B"] ["15m"] ≫= pair_columns sample_loader.
Proof.
  refine (proj2 (proj2 (merge_data_column_layout sample_loader ["A"; "B"]
                          ["15m"] _ _))).
  reflexivity.
Defined.

Lemma insert_sorted_elem (x y : Z) (l : list Z) :
  y ∈ insert_sorted x l <-> y = x \/ y ∈ l.
Proof.
  induction l as [|z l IH]; simpl.
  - rewrite list_elem_of_singleton, elem_of_nil. tauto.
  - destruct (x <? z)%Z eqn:E1; [rewrite !elem_of_cons; tauto |].
    destruct (x =? z)%Z eqn:E2.
    + apply Z.eqb_eq in E2 as ->. rewrite !elem_of_cons. tauto.
    + rewrite !elem_of_cons, IH. tauto.
Qed.

Lemma insert_sorted_ascending (x : Z) (l : list Z) :
  strictly_ascending l -> strictly_ascending (insert_sorted x l).
Proof.
  induction l as [|z l IH]; simpl; [intros _; split; constructor |].
  intros [Hz Hl]. destruct (x <? z)%Z eqn:E1.
  - apply Z.ltb_lt in E1. simpl. repeat split; try assumption.
    constructor; [assumption |].
    eapply Forall_impl; [exact Hz |]. simpl. intros; lia.
  - destruct (x =? z)%Z eqn:E2; [simpl; auto |].
    apply Z.ltb_ge in E1. apply Z.eqb_neq in E2. simpl.
    split; [| apply IH, Hl].
    apply Forall_forall. intros y Hy. apply insert_sorted_elem in Hy as [->|Hy].
    + lia.
    + rewrite Forall_forall in Hz. apply Hz, Hy.
Qed.

Lemma foldr_insert_sorted_elem (y : Z) (l : list Z) :
  y ∈ foldr insert_sorted [] l <-> y ∈ l.
Proof.
  induction l as [|x l IH]; simpl; [tauto |].
  rewrite insert_sorted_elem, IH, elem_of_cons. tauto.
Qed.

Lemma union_index_elem (y : Z) (a b : list Z) :
  y ∈ union_index a b <-> y ∈ a \/ y ∈ b.
Proof. unfold union_index. rewrite foldr_insert_sorted_elem. apply elem_of_app. Qed.

Lemma union_index_ascending (a b : list Z) :
  strictly_ascending (union_index a b).
Proof.
  unfold union_index. induction (a ++ b) as [|x l IH]; simpl; [exact I |].
  apply insert_sorted_ascending, IH.
Qed.

Lemma fold_merge_index (loader : string -> string -> result DataFrame)
    (l : list (string * string)) (acc r : option DataFrame) :
  fold_result (fun m (ip : string * string) => merge_step loader ip.1 m ip.2)
    l acc = Ok r ->
  (forall t, t ∈ frame_index r <->
             t ∈ frame_index acc
             \/ exists ip, ip ∈ l /\ t ∈ pair_index loader ip)
  /\ (strictly_ascending (frame_index acc) ->
      Forall (fun ip => strictly_ascending (pair_index loader ip)) l ->
      strictly_ascending (frame_index r)).
Proof.
  revert acc. induction l as [|[i p] l IH]; intros acc.
  - intros [= <-]. split.
    + intros t. split; [auto |]. intros [H|(ip & Hin & _)]; [assumption |].
      inversion Hin.
    + auto.
  - simpl. destruct (merge_step loader i acc p) as [acc'|e] eqn:E;
      [| discriminate].
    simpl. intros Hrun. destruct (IH acc' Hrun) as (Hmem & Hasc).
    apply merge_step_Ok in E as (f & df & Hf & -> & _ & Hidx).
    assert (Hpi : pair_index loader (i, p) = index f).
    { unfold pair_index. simpl. rewrite Hf. reflexivity. }
    assert (Hdf : forall t, t ∈ index df <->
                            t ∈ frame_index acc \/ t ∈ index f).
    { intros t. destruct acc as [m|]; simpl; rewrite Hidx.
      - apply union_index_elem.
      - rewrite elem_of_nil. tauto. }
    split.
    + intros t. rewrite Hmem. simpl. rewrite Hdf. split.
      * intros [[H|H]|(ip & Hin & H)]; [auto | |].
        -- right. exists (i, p). rewrite Hpi. split; [left | assumption].
        -- right. exists ip. split; [right |]; assumption.
      * intros [H|(ip & Hin & H)]; [auto |].
        apply elem_of_cons in Hin as [->|Hin].
        -- rewrite Hpi in H. auto.
        -- right. eauto.
    + intros _ Hall. apply Forall_cons in Hall as [Hf1 Hall].
      apply Hasc; [| assumption]. simpl.
      destruct acc as [m|]; rewrite Hidx.
      * apply union_index_ascending.
      * rewrite <- Hpi. exact Hf1.
Qed.

(** X20.  The index of the table [merge_data] returns is the union of the
    timestamps of all the series: a timestamp is in it exactly when some
    series has a bar there.  When every series is in strictly ascending
    time order, so is the table, every timestamp once. *)
Theorem merge_data_index_is_union
    (loader : string -> string -> result DataFrame)
    (instruments periods : list string) (df : DataFrame) :
  merge_data loader instruments periods = Ok (Some df) ->
  (forall t, t ∈ index df <->
             exists ip, ip ∈ pairs instruments periods
                        /\ t ∈ pair_index loader ip)
  /\ (Forall (fun ip => strictly_ascending (pair_index loader ip))
        (pairs instruments periods) ->
      strictly_ascending (index df)).
Proof.
  rewrite merge_data_pairs. intros Hrun.
  apply fold_merge_index in Hrun as (Hmem & Hasc). simpl in Hmem, Hasc.
  split.
  - intros t. rewrite Hmem, elem_of_nil. tauto.
  - intros H. apply Hasc; [exact I | assumption].
Qed.

Lemma merge_data_index_is_union_witness :
  strictly_ascending
    (index {| columns := ["A_15m_close"; "B_15m_close"];
              rows := [(1%Z, [Fin 10; NaN]); (2%Z, [Fin 11; Fin 20]);
                       (3%Z, [Fin 12; Fin 21]); (4%Z, [NaN; Fin 22])] |}).
Proof.
  refine (proj2 (merge_data_index_is_union sample_loader ["A"; "B"] ["15m"]
                   _ _) _).
  - reflexivity.
  - repeat constructor.
Defined.

(* ================================================================= *)
(** * Invariants of the strategy state *)

Lemma keeps_ret {S A} (I : S -> Prop) (a : A) : keeps I (ret a).
Proof. intros s H. exact H. Qed.

Lemma keeps_lift {S A} (I : S -> Prop) (r : result A) : keeps I (lift r).
Proof. intros s H. exact H. Qed.

Lemma keeps_raise {S A} (I : S -> Prop) (e : exn) : keeps I (raise (A:=A) e).
Proof. intros s H. exact H. Qed.

Lemma keeps_get {S} (I : S -> Prop) : keeps I get.
Proof. intros s H. exact H. Qed.

Lemma keeps_bind {S A B} (I : S -> Prop) (m : M S A) (k : A -> M S B) :
  keeps I m -> (forall a, keeps I (k a)) -> keeps I (bind m k).
Proof.
  intros Hm Hk s Hs. unfold bind. specialize (Hm s Hs).
  destruct (m s) as [[a|e] s1]; simpl in *; [apply Hk, Hm | exact Hm].
Qed.

Lemma keeps_for_each {S A} (I : S -> Prop) (l : list A) (body : A -> M S unit) :
  (forall x, x ∈ l -> keeps I (body x)) -> keeps I (for_each l body).
Proof.
  induction l as [|x l IH]; intros Hbody; [apply keeps_ret |].
  cbn [for_each]. apply keeps_bind; [apply Hbody; left |].
  intros _. apply IH. intros y Hy. apply Hbody. right. assumption.
Qed.

Lemma keeps_calc_get {I : StrategyState -> Prop} (key : string) :
  keeps I (calc_get key).
Proof.
  intros [d|] H; unfold calc_get; [| exact H].
  destruct (d !! key); exact H.
Qed.

Lemma keeps_calc_value {I : StrategyState -> Prop} (key : string) :
  keeps I (calc_value key).
Proof.
  unfold calc_value. apply keeps_bind; [apply keeps_calc_get |].
  intros e. apply keeps_ret.
Qed.

(** The names of the calculators tell the window and the time frame. *)
Lemma key_15m_ema_inj (instrument : string) (w w' : Z) :
  key_15m_ema instrument w = key_15m_ema instrument w' -> w = w'.
Proof.
  unfold key_15m_ema. intros H.
  apply String.app_inj in H. apply String.app_inj in H.
  apply (inj pretty) in H. exact H.
Qed.

Lemma key_1h_ema_inj (instrument : string) (w w' : Z) :
  key_1h_ema instrument w = key_1h_ema instrument w' -> w = w'.
Proof.
  unfold key_1h_ema. intros H.
  apply String.app_inj in H. apply String.app_inj in H.
  apply (inj pretty) in H. exact H.
Qed.

Lemma key_15m_ne_1h (instrument : string) (w w' : Z) :
  key_15m_ema instrument w <> key_1h_ema instrument w'.
Proof.
  unfold key_15m_ema, key_1h_ema. intros H.
  apply String.app_inj in H. simpl in H. discriminate H.
Qed.

(** Writing the same calculator under both names of a window. *)
Lemma in_step_insert_both (instrument : string) (w : Z) (e : EMA)
    (d : gmap string EMA) :
  in_step instrument (Some d) ->
  in_step instrument
    (Some (<[key_1h_ema instrument w := e]>
             (<[key_15m_ema instrument w := e]> d))).
Proof.
  intros Hd w0. destruct (decide (w0 = w)) as [->|Hne].
  - rewrite lookup_insert_eq.
    rewrite lookup_insert_ne by (intros H; symmetry in H;
                                 exact (key_15m_ne_1h _ _ _ H)).
    rewrite lookup_insert_eq. reflexivity.
  - rewrite lookup_insert_ne by (intros H; apply key_1h_ema_inj in H; congruence).
    rewrite lookup_insert_ne by (apply key_15m_ne_1h).
    rewrite lookup_insert_ne by (intros H; symmetry in H;
                                 exact (key_15m_ne_1h _ _ _ H)).
    rewrite lookup_insert_ne by (intros H; apply key_15m_ema_inj in H; congruence).
    apply Hd.
Qed.

Lemma keeps_in_step_create (instrument : string) (w : Z) :
  keeps (in_step instrument)
    (e15 <~ lift (EMA_init w);;
     calc_set (key_15m_ema instrument w) e15;;;
     e1h <~ lift (EMA_init w);;
     calc_set (key_1h_ema instrument w) e1h).
Proof.
  intros [d|] Hd; unfold bind, lift, calc_set;
    destruct (EMA_init w) as [e|err]; simpl; try exact I; try exact Hd.
  apply in_step_insert_both, Hd.
Qed.

Lemma keeps_in_step_update (instrument : string) (w : Z) (price : float) :
  keeps (in_step instrument)
    (e15 <~ calc_get (key_15m_ema instrument w);;
     calc_set (key_15m_ema instrument w) (EMA_update e15 price);;;
     e1h <~ calc_get (key_1h_ema instrument w);;
     calc_set (key_1h_ema instrument w) (EMA_update e1h price)).
Proof.
  intros [d|] Hd; [| exact I].
  unfold bind at 1, calc_get at 1.
  destruct (d !! key_15m_ema instrument w) as [e|] eqn:E; [| exact Hd].
  unfold bind at 1, calc_set at 1. unfold bind at 1, calc_get at 1.
  rewrite lookup_insert_ne by apply key_15m_ne_1h.
  rewrite (Hd w), E. unfold calc_set. cbn [snd].
  apply in_step_insert_both, Hd.
Qed.

Lemma keeps_in_step_init (instrument : string) (ws : list Z) :
  keeps (in_step instrument) (init_calculators instrument ws).
Proof.
  unfold init_calculators. apply keeps_bind; [apply keeps_get |].
  intros [d|]; [apply keeps_ret |].
  apply keeps_bind.
  - intros s _ w. reflexivity.
  - intros _. apply keeps_for_each. intros w _. apply keeps_in_step_create.
Qed.

Lemma keeps_in_step_call (row : Row) (instrument : string) (ws : list Z) :
  keeps (in_step instrument) (ema_trend_strategy row instrument ws).
Proof.
  unfold ema_trend_strategy.
  apply keeps_bind; [| intros r; apply keeps_ret].
  unfold strategy_body.
  apply keeps_bind; [apply keeps_lift | intros price].
  apply keeps_bind; [apply keeps_in_step_init | intros _].
  apply keeps_bind.
  { unfold update_calculators. apply keeps_for_each. intros w _.
    apply keeps_in_step_update. }
  intros _.
  do 4 (apply keeps_bind; [apply keeps_calc_value | intros ?]).
  do 3 (apply keeps_bind; [apply keeps_lift | intros ?]).
  apply keeps_ret.
Qed.

(** X23.  The calculators named for the hour are not fed hourly bars: in
    every state a process reaches by calls of the strategy for one
    instrument, whatever the rows and windows and whether the calls return
    or raise, the calculator [<instrument>_1h_ema_<w>] is the same as the
    calculator [<instrument>_15m_ema_<w>].  The major trend thus compares
    the 15-minute averages of windows 12 and 20. *)
Theorem hourly_calculators_mirror_quarter_hourly (instrument : string)
    (calls : list (Row * list Z)) (st : StrategyState) :
  in_step instrument st ->
  in_step instrument
    (foldl (fun s (c : Row * list Z) =>
              (ema_trend_strategy c.1 instrument c.2 s).2) st calls).
Proof.
  revert st. induction calls as [|[row ws] calls IH]; intros st Hst;
    [exact Hst |].
  simpl. apply IH. apply keeps_in_step_call, Hst.
Qed.

Lemma hourly_calculators_mirror_quarter_hourly_witness :
  in_step "X"
    (foldl (fun s (c : Row * list Z) =>
              (ema_trend_strategy c.1 "X" c.2 s).2) None
       [([("X_15m_close", Fin 100)], default_ema_windows);
        ([("X_15m_close", Fin 111)], default_ema_windows)]).
Proof.
  apply hourly_calculators_mirror_quarter_hourly. exact I.
Defined.

(* ----------------------------------------------------------------- *)
(** Windows that leave out 5, 12 or 20. *)

Lemma calculator_keys_15m (instrument : string) (ws : list Z) (w : Z) :
  key_15m_ema instrument w ∈ calculator_keys instrument ws <-> w ∈ ws.
Proof.
  unfold calculator_keys. rewrite list_elem_of_bind. split.
  - intros (w' & Hk & Hw'). apply elem_of_cons in Hk as [Hk|Hk].
    + apply key_15m_ema_inj in Hk. congruence.
    + apply list_elem_of_singleton in Hk. apply key_15m_ne_1h in Hk. tauto.
  - intros Hw. exists w. split; [left | assumption].
Qed.

Lemma calculator_keys_1h (instrument : string) (ws : list Z) (w : Z) :
  key_1h_ema instrument w ∈ calculator_keys instrument ws <-> w ∈ ws.
Proof.
  unfold calculator_keys. rewrite list_elem_of_bind. split.
  - intros (w' & Hk & Hw'). apply elem_of_cons in Hk as [Hk|Hk].
    + symmetry in Hk. apply key_15m_ne_1h in Hk. tauto.
    + apply list_elem_of_singleton in Hk. apply key_1h_ema_inj in Hk.
      congruence.
  - intros Hw. exists w. split; [right; left | assumption].
Qed.

Lemma calculator_keys_cons (instrument : string) (w : Z) (ws : list Z)
    (k : string) :
  k ∈ calculator_keys instrument (w :: ws)
  <-> key_15m_ema instrument w = k \/ key_1h_ema instrument w = k
      \/ k ∈ calculator_keys instrument ws.
Proof.
  unfold calculator_keys. cbn [mbind list_bind]. rewrite elem_of_app.
  rewrite !elem_of_cons, elem_of_nil. intuition.
Qed.

Lemma create_calculators_dom (instrument : string) (ws : list Z)
    (d : gmap string EMA) :
  (-1)%Z ∉ ws ->
  exists d',
    for_each ws (fun w =>
        e15 <~ lift (EMA_init w);;
        calc_set (key_15m_ema instrument w) e15;;;
        e1h <~ lift (EMA_init w);;
        calc_set (key_1h_ema instrument w) e1h) (Some d)
    = (Ok tt, Some d')
    /\ (forall k, is_Some (d' !! k) <->
                  is_Some (d !! k) \/ k ∈ calculator_keys instrument ws).
Proof.
  revert d. induction ws as [|w ws IH]; intros d Hw.
  - exists d. split; [reflexivity |]. intros k.
    unfold calculator_keys. simpl. rewrite elem_of_nil. tauto.
  - apply not_elem_of_cons in Hw as [Hw1 Hw].
    set (e := {| window := w; alpha := 2 / inject_Z (w + 1); value := None |}).
    assert (HE : EMA_init w = Ok e).
    { unfold EMA_init. rewrite decide_False by lia. reflexivity. }
    destruct (IH (<[key_1h_ema instrument w := e]>
                    (<[key_15m_ema instrument w := e]> d)) Hw)
      as (d' & Hrun & Hdom).
    exists d'. split.
    + simpl. unfold bind at 1. unfold bind at 1. unfold bind at 1.
      rewrite HE. unfold lift at 1. unfold calc_set at 1.
      unfold bind at 1. unfold bind at 1. unfold lift at 1.
      unfold calc_set at 1. exact Hrun.
    + intros k. rewrite Hdom, !lookup_insert_is_Some', calculator_keys_cons.
      intuition.
Qed.

Lemma advanced_dom (price : float) (ks : list string)
    (d d' : gmap string EMA) (k : string) :
  advanced price ks d d' -> (is_Some (d' !! k) <-> is_Some (d !! k)).
Proof.
  intros H. specialize (H k). destruct (d !! k) as [e|].
  - destruct H as (n & -> & _). split; eauto.
  - destruct H as [-> _]. tauto.
Qed.

(** The first call of a process creates the calculators of its windows,
    whatever it returns. *)
Lemma first_call_creates (row : Row) (instrument : string) (ws : list Z) :
  (-1)%Z ∉ ws ->
  is_Some (assoc_get row (key_15m_close instrument)) ->
  created_for instrument ws (ema_trend_strategy row instrument ws None).2.
Proof.
  intros Hw Hrow. apply row_get_is_Some in Hrow as [price Hrow].
  destruct (create_calculators_dom instrument ws ∅ Hw) as (d0 & Hinit & Hdom0).
  destruct (update_calculators_spec instrument price ws d0) as (d' & Hupd & Hadv).
  { intros w Hw'. split; apply Hdom0; right.
    - apply calculator_keys_15m, Hw'.
    - apply calculator_keys_1h, Hw'. }
  assert (Hd' : created_for instrument ws (Some d')).
  { intros k. rewrite (advanced_dom _ _ _ _ k Hadv), Hdom0.
    rewrite lookup_empty. split; [intros [[x Hx]|H]; [discriminate | exact H]
                                 | auto]. }
  unfold ema_trend_strategy, strategy_body.
  unfold bind at 1. unfold bind at 1. unfold lift at 1. rewrite Hrow.
  unfold bind at 1.
  assert (Hinit' : init_calculators instrument ws None = (Ok tt, Some d0)).
  { unfold init_calculators, bind, get, put. exact Hinit. }
  rewrite Hinit'. unfold bind at 1. rewrite Hupd.
  match goal with
  | |- created_for _ _ (let (r, s') := ?m (Some d') in _).2 =>
      assert (Hk : (m (Some d')).2 = Some d')
  end.
  { apply (@keeps_bind _ _ _ (fun s => s = Some d'));
      [apply keeps_calc_value | intros ? | reflexivity].
    do 3 (apply keeps_bind; [apply keeps_calc_value | intros ?]).
    do 3 (apply keeps_bind; [apply keeps_lift | intros ?]).
    apply keeps_ret. }
  match goal with
  | |- created_for _ _ (let (r, s') := ?m (Some d') in _).2 =>
      destruct (m (Some d')) as [[r|e] s']
  end; simpl in Hk |- *; subst s'; exact Hd'.
Qed.

Lemma keeps_created_update (instrument instrument' : string) (ws0 : list Z)
    (w : Z) (price : float) :
  keeps (created_for instrument ws0)
    (e15 <~ calc_get (key_15m_ema instrument' w);;
     calc_set (key_15m_ema instrument' w) (EMA_update e15 price);;;
     e1h <~ calc_get (key_1h_ema instrument' w);;
     calc_set (key_1h_ema instrument' w) (EMA_update e1h price)).
Proof.
  intros [d|] Hd; [| contradiction].
  unfold bind at 1, calc_get at 1.
  destruct (d !! key_15m_ema instrument' w) as [e|] eqn:E; [| exact Hd].
  unfold bind at 1, calc_set at 1. unfold bind at 1, calc_get at 1.
  assert (H1 : created_for instrument ws0
                 (Some (<[key_15m_ema instrument' w := EMA_update e price]> d))).
  { intros k. rewrite lookup_insert_is_Some', <- (Hd k).
    split; [intros [<-|H]; eauto | auto]. }
  destruct (<[key_15m_ema instrument' w := EMA_update e price]> d
              !! key_1h_ema instrument' w) as [e'|] eqn:E'; [| exact H1].
  unfold calc_set. cbn [snd]. intros k.
  rewrite lookup_insert_is_Some', <- (H1 k).
  split; [intros [<-|H]; eauto | auto].
Qed.

Lemma keeps_created_call (row : Row) (instrument instrument' : string)
    (ws0 ws : list Z) :
  keeps (created_for instrument ws0) (ema_trend_strategy row instrument' ws).
Proof.
  unfold ema_trend_strategy.
  apply keeps_bind; [| intros r; apply keeps_ret].
  unfold strategy_body.
  apply keeps_bind; [apply keeps_lift | intros price].
  apply keeps_bind.
  { intros [d|] Hd; [exact Hd | contradiction]. }
  intros _. apply keeps_bind.
  { unfold update_calculators. apply keeps_for_each. intros w _.
    apply keeps_created_update. }
  intros _.
  do 4 (apply keeps_bind; [apply keeps_calc_value | intros ?]).
  do 3 (apply keeps_bind; [apply keeps_lift | intros ?]).
  apply keeps_ret.
Qed.

Lemma calc_value_Ok (key : string) (st st' : StrategyState)
    (v : option float) :
  calc_value key st = (Ok v, st') ->
  st' = st /\ exists d, st = Some d /\ is_Some (d !! key).
Proof.
  unfold calc_value, bind, calc_get, ret. destruct st as [d|]; [| discriminate].
  destruct (d !! key) as [e|] eqn:E; [| discriminate].
  intros [= <- <-]. split; [reflexivity |]. exists d. eauto.
Qed.

(** A call that returns has found the four calculators it reads. *)
Lemma call_Ok_reads (row : Row) (instrument : string) (ws : list Z)
    (st : StrategyState) (sg : option Signal) :
  (ema_trend_strategy row instrument ws st).1 = Ok sg ->
  exists d', (ema_trend_strategy row instrument ws st).2 = Some d'
             /\ is_Some (d' !! key_15m_ema instrument 5)
             /\ is_Some (d' !! key_15m_ema instrument 12)
             /\ is_Some (d' !! key_1h_ema instrument 20).
Proof.
  unfold ema_trend_strategy, strategy_body, bind, lift.
  destruct (row_get row (key_15m_close instrument)) as [price|];
    [| discriminate].
  destruct (init_calculators instrument ws st) as [[[]|] s1]; [| discriminate].
  destruct (update_calculators instrument ws price s1) as [[[]|] s2];
    [| discriminate].
  destruct (calc_value (key_15m_ema instrument 5) s2) as [[v5|] s3] eqn:E5;
    [| discriminate].
  destruct (calc_value (key_15m_ema instrument 12) s3) as [[v12|] s4] eqn:E12;
    [| discriminate].
  destruct (calc_value (key_1h_ema instrument 12) s4) as [[v12h|] s5] eqn:E12h;
    [| discriminate].
  destruct (calc_value (key_1h_ema instrument 20) s5) as [[v20h|] s6] eqn:E20h;
    [| discriminate].
  apply calc_value_Ok in E5 as (-> & d & -> & K5).
  apply calc_value_Ok in E12 as (-> & d12 & [= <-] & K12).
  apply calc_value_Ok in E12h as (-> & _).
  apply calc_value_Ok in E20h as (-> & d20 & [= <-] & K20).
  destruct (classify v12h v20h); [| discriminate].
  destruct (classify v5 v12); [| discriminate].
  destruct (trade_logic price a a0); [| discriminate].
  intros _. exists d. auto.
Qed.

(** X24.  The windows of the first call are the windows for good.  When a
    process first calls the strategy with windows that leave out 5, 12 or
    20, the calculators are created for those windows only, and from then
    on every call for the instrument raises, whatever windows and row it
    is given: the strategy never returns in that process again. *)
Theorem windows_without_5_12_20_break_the_strategy (instrument : string)
    (ws0 : list Z) (row0 : Row) (calls : list (Row * list Z))
    (row : Row) (ws : list Z) :
  (-1)%Z ∉ ws0 ->
  ~ (5 ∈ ws0 /\ 12 ∈ ws0 /\ 20 ∈ ws0)%Z ->
  is_Some (assoc_get row0 (key_15m_close instrument)) ->
  let st1 := (ema_trend_strategy row0 instrument ws0 None).2 in
  let st := foldl (fun s (c : Row * list Z) =>
                     (ema_trend_strategy c.1 instrument c.2 s).2) st1 calls in
  (forall sg, (ema_trend_strategy row0 instrument ws0 None).1 <> Ok sg)
  /\ (forall sg, (ema_trend_strategy row instrument ws st).1 <> Ok sg).
Proof.
  intros Hw Hmiss Hrow st1 st.
  assert (Hno : forall s r w sg,
            created_for instrument ws0 (ema_trend_strategy r instrument w s).2 ->
            (ema_trend_strategy r instrument w s).1 <> Ok sg).
  { intros s r w sg Hc Hok.
    apply call_Ok_reads in Hok as (d' & Hd' & K5 & K12 & K20).
    rewrite Hd' in Hc. apply Hmiss. repeat split.
    - apply (calculator_keys_15m instrument), Hc, K5.
    - apply (calculator_keys_15m instrument), Hc, K12.
    - apply (calculator_keys_1h instrument), Hc, K20. }
  assert (H1 : created_for instrument ws0 st1)
    by (apply first_call_creates; assumption).
  assert (Hst : created_for instrument ws0 st).
  { unfold st. clear -H1. revert H1. generalize st1.
    induction calls as [|[r w] calls IH]; intros s Hs; [exact Hs |].
    simpl. apply IH. apply keeps_created_call, Hs. }
  split; intros sg.
  - apply Hno. exact H1.
  - apply Hno. apply keeps_created_call, Hst.
Qed.

Lemma windows_without_5_12_20_break_the_strategy_witness :
  exists e,
    (ema_trend_strategy [("X_15m_close", Fin 111)] "X" default_ema_windows
       (ema_trend_strategy [("X_15m_close", Fin 100)] "X" [5; 12]%Z None).2).1
    = Raise e.
Proof.
  destruct ((ema_trend_strategy [("X_15m_close", Fin 111)] "X"
               default_ema_windows
               (ema_trend_strategy [("X_15m_close", Fin 100)] "X" [5; 12]%Z
                  None).2).1) as [sg|e] eqn:E; [| exists e; reflexivity].
  exfalso.
  refine (proj2 (windows_without_5_12_20_break_the_strategy "X" [5; 12]%Z
                   [("X_15m_close", Fin 100)] []
                   [("X_15m_close", Fin 111)] default_ema_windows _ _ _)
            sg E).
  - intros H. repeat (apply elem_of_cons in H as [H|H]; [discriminate H |]).
    inversion H.
  - intros (_ & _ & H).
    repeat (apply elem_of_cons in H as [H|H]; [discriminate H |]).
    inversion H.
  - simpl. eauto.
Defined.
